(** * Scroll: the file-handle binding of the IO kingdom (src/other/io/scroll.c)

    A shallow embedding of [scroll.c] and the statements its description
    makes about it.  The C functions become functions of a small
    state-and-outcome monad over a [machine]: the scroll object the receiver
    argument points to, the stdio stream behind [scroll->file], the record of
    the stdio calls issued so far, [errno], and the four file-scope journey
    variables.

    stdio itself is the environment.  It is modelled by an executable
    stream (contents, position, end-of-file and error indicators, and
    whether it was opened in an append mode) driven by a [script]: each
    stdio call consumes one scripted event, which decides whether that call
    transfers everything, transfers only part, or fails.
    Integer types follow the LP64 convention ([unsigned] and [int] 32 bits,
    [size_t] and [long] 64 bits); conversions are written out. *)

From Stdlib Require Import ZArith List String Bool Lia.
From Stdlib Require Import Strings.Byte.
Import ListNotations.
Open Scope string_scope.
Open Scope list_scope.
Open Scope Z_scope.

(** ** C integer conversions *)

Definition to_unsigned (x : Z) : Z := x mod 2 ^ 32.
Definition to_size_t (x : Z) : Z := x mod 2 ^ 64.
Definition to_int (x : Z) : Z := (x + 2 ^ 31) mod 2 ^ 32 - 2 ^ 31.
Definition to_long (x : Z) : Z := (x + 2 ^ 63) mod 2 ^ 64 - 2 ^ 63.

(** ** Character buffers *)

(** The characters of the C string that starts at the head of [buf]: what is
    before the first zero byte. *)
Fixpoint cstr (buf : list byte) : list byte :=
  match buf with
  | [] => []
  | b :: rest => if Byte.eqb b x00 then [] else b :: cstr rest
  end.

Fixpoint bytes_eqb (p q : list byte) : bool :=
  match p, q with
  | [], [] => true
  | a :: p', b :: q' => Byte.eqb a b && bytes_eqb p' q'
  | _, _ => false
  end.

(** [strcmp(p, q) == 0]. *)
Definition strcmp_eq (p q : list byte) : bool := bytes_eqb (cstr p) (cstr q).

(** [strndup(p, n)]: at most [n] characters, and none past a zero byte. *)
Definition strndup (p : list byte) (n : nat) : list byte := cstr (firstn n p).

(** Writing [bs] into [buf] from index [at_] on, as [fread] and an indexed
    assignment do.  Inside the buffer this is the C behaviour; past its end
    C leaves the behaviour undefined. *)
Definition store (buf : list byte) (at_ : Z) (bs : list byte) : list byte :=
  firstn (Z.to_nat at_) buf ++ bs ++ skipn (Z.to_nat at_ + List.length bs) buf.

(** ** Values of the host language *)

(** Modelled from the spec: [struct sq_text] of [squire/text.h], which is
    not among the sources.  It is the host's text value, a byte buffer with
    its length; the two fields are the ones [scroll.c] uses. *)
Record sq_text := { ptr : list byte; length : Z }.

(** The text [t] after its buffer has been assigned to: the buffer becomes
    [p], the [length] field stays. *)
Definition with_ptr (t : sq_text) (p : list byte) : sq_text :=
  {| ptr := p; length := length t |}.

(** The native functions a builtin journey can point to. *)
Inductive native := Fwrite | Fread | Fseek | Fclose.

(** Modelled from the spec: the builtin journey of [squire/other/other.h],
    which is not among the sources: a natively implemented callable with a
    name for diagnostics, a fixed number of arguments and its function; the
    fields are the ones [NEW_JOURNEY] assigns. *)
Record builtin_journey := { name : string; nargs : Z; func : native }.

(** Modelled from the spec: [struct sq_other] of [squire/other/other.h],
    the host value kind that wraps heap objects, by kind: the scroll, a
    builtin journey ([SQ_OK_BUILTIN_JOURNEY]) with its reference count, or
    any other kind.  The scroll itself lives in the machine (there is one
    scroll object), so a value of kind scroll is a reference to it. *)
Inductive sq_other :=
| OScroll
| OJourney (refcount : Z) (j : builtin_journey)
| ORest (k : nat).

(** Modelled from the spec: the runtime type tags of [squire/value.h], which
    is not among the sources; the three [read_func] names, and the rest. *)
Inductive sq_genus := SQ_G_OTHER | SQ_G_NUMERAL | SQ_G_TEXT | SQ_G_REST (g : nat).

(** Modelled from the spec: [sq_value] of [squire/value.h], the host's
    tagged dynamic value, with the constants [scroll.c] names.  [SQ_NULL] is
    the all-zero value of a static variable that was never assigned;
    [Foreign] stands for the genera [scroll.c] never names. *)
Inductive sq_value :=
| SQ_NI
| SQ_UNDEFINED
| SQ_NULL
| Numeral (n : Z)
| Text (t : sq_text)
| Other (o : sq_other)
| Foreign (g : nat).

(** [read_func] compares its argument with [SQ_NI] under [case SQ_G_OTHER],
    so [SQ_NI] carries that tag.  The tag of the two other constants does
    not matter to [scroll.c] as long as it is not numeral or text. *)
Definition sq_value_genus_tag (v : sq_value) : sq_genus :=
  match v with
  | Numeral _ => SQ_G_NUMERAL
  | Text _ => SQ_G_TEXT
  | SQ_NI | SQ_UNDEFINED | SQ_NULL | Other _ => SQ_G_OTHER
  | Foreign g => SQ_G_REST g
  end.

Definition sq_value_eqb_ni (v : sq_value) : bool :=
  match v with SQ_NI => true | _ => false end.

(** Modelled from the spec: [struct sq_args], the argument list a native
    callable receives: positional arguments, the receiver first, and the
    number of keyword arguments.  [pargc] is the length of [pargv]. *)
Record sq_args := { pargv : list sq_value; kwargc : Z }.
Definition pargc (args : sq_args) : Z := Z.of_nat (List.length (pargv args)).
Definition parg (args : sq_args) (i : nat) : sq_value := nth i (pargv args) SQ_NULL.

(** ** Exceptions and the other ways a call can end *)

(** Modelled from the spec: the two raise primitives of
    [squire/exception.h], which is not among the sources.  The spec's error
    bridge has two kinds: an IO error for OS-level failures, raised by
    [sq_throw_io], and the plain error the spec calls a value or type
    error, raised by [sq_throw].  Either ends the call and leaves the
    machine as the raising statement found it.  A message is kept as the
    format with its arguments. *)
Inductive error_kind := IOError | PlainError.
Inductive fmt_arg := ArgNum (z : Z) | ArgStr (s : string).
Record exception := { kind : error_kind; fmt : string; fargs : list fmt_arg }.

Inductive outcome (A : Type) :=
| Return (a : A)
| Throw (e : exception)
| Die (msg : string)          (* [die]: the process ends *)
| AssertFail (what : string)  (* a failed [assert] *)
| OutOfFuel.                  (* the bound of a modelled loop was too small *)
Arguments Return {A} a.
Arguments Throw {A} e.
Arguments Die {A} msg.
Arguments AssertFail {A} what.
Arguments OutOfFuel {A}.

(** ** The stdio stream and the machine *)

(** A stream: what the file holds, the file position, the two indicators,
    whether the stream is open, and whether it was opened in an append mode
    ("a", "a+", ...), in which every write goes to the end of the file
    wherever the position is. *)
Record FILE := {
  contents : list byte;
  position : nat;
  eof_ind : bool;
  err_ind : bool;
  is_open : bool;
  append : bool
}.

(** The null pointer [fopen] returns on failure, as a value of [FILE]: no
    stream is behind it, and a stdio call through it is undefined in C, as
    one on a closed stream is. *)
Definition null_file : FILE :=
  {| contents := []; position := 0; eof_ind := false; err_ind := false;
     is_open := false; append := false |}.

(** Whether [fopen]'s mode string asks for an append mode. *)
Definition append_mode (mode : string) : bool := String.prefix "a" mode.

(** What the environment does with the next stdio call: carry it out in
    full, transfer at most [k] bytes without raising an indicator, or
    transfer at most [k] bytes and fail with error number [code].  A call
    that the stream's access mode does not allow (a write on a stream
    opened for reading only, a read on one opened for writing only) is a
    call the environment fails. *)
Inductive os_event := Complete | Short (k : nat) | Fault (k : nat) (code : Z).

Inductive os_call :=
| Cfopen (filename mode : string)
| Cfread (count : Z)
| Cfwrite (bytes : list byte)
| Cfseek (offset whence : Z)
| Cftell
| Cferror
| Cfgetln
| Cfclose.

(** Modelled from the spec: [struct sq_scroll] of [squire/other/scroll.h],
    which is not among the sources: the stream, the file name and the mode,
    the three fields [scroll.c] uses.  The stream is held by value: the
    scroll is the only holder of its [FILE] pointer. *)
Record sq_scroll := { file : FILE; filename : string; mode : string }.

Record machine := {
  scroll : sq_scroll;
  script : list os_event;
  log : list os_call;
  errno : Z;
  write_journey : sq_value;
  read_journey : sq_value;
  seek_journey : sq_value;
  close_journey : sq_value
}.

Definition set_scroll (s : sq_scroll) (m : machine) : machine :=
  {| scroll := s; script := script m; log := log m; errno := errno m;
     write_journey := write_journey m; read_journey := read_journey m;
     seek_journey := seek_journey m; close_journey := close_journey m |}.

Definition set_file (f : FILE) (m : machine) : machine :=
  set_scroll {| file := f; filename := filename (scroll m); mode := mode (scroll m) |} m.

Definition set_script (s : list os_event) (m : machine) : machine :=
  {| scroll := scroll m; script := s; log := log m; errno := errno m;
     write_journey := write_journey m; read_journey := read_journey m;
     seek_journey := seek_journey m; close_journey := close_journey m |}.

Definition set_errno (e : Z) (m : machine) : machine :=
  {| scroll := scroll m; script := script m; log := log m; errno := e;
     write_journey := write_journey m; read_journey := read_journey m;
     seek_journey := seek_journey m; close_journey := close_journey m |}.

Definition log_call (c : os_call) (m : machine) : machine :=
  {| scroll := scroll m; script := script m; log := log m ++ [c]; errno := errno m;
     write_journey := write_journey m; read_journey := read_journey m;
     seek_journey := seek_journey m; close_journey := close_journey m |}.

Definition set_journeys (w r s c : sq_value) (m : machine) : machine :=
  {| scroll := scroll m; script := script m; log := log m; errno := errno m;
     write_journey := w; read_journey := r; seek_journey := s; close_journey := c |}.

Definition next_event (m : machine) : os_event * machine :=
  match script m with
  | [] => (Complete, m)
  | e :: rest => (e, set_script rest m)
  end.

(** ** The monad *)

Definition M (A : Type) : Type := machine -> outcome A * machine.

Definition ret {A} (a : A) : M A := fun m => (Return a, m).

Definition bind {A B} (c : M A) (k : A -> M B) : M B :=
  fun m =>
    match c m with
    | (Return a, m') => k a m'
    | (Throw e, m') => (Throw e, m')
    | (Die msg, m') => (Die msg, m')
    | (AssertFail w, m') => (AssertFail w, m')
    | (OutOfFuel, m') => (OutOfFuel, m')
    end.

Declare Scope scroll_scope.
Delimit Scope scroll_scope with scroll.
Notation "x <- c ;; k" := (bind c (fun x => k))
  (at level 100, c at next level, right associativity) : scroll_scope.
Notation "c ;; k" := (bind c (fun _ => k))
  (at level 100, right associativity) : scroll_scope.
Open Scope scroll_scope.

Definition sq_throw_io {A} (f : string) (a : list fmt_arg) : M A :=
  fun m => (Throw {| kind := IOError; fmt := f; fargs := a |}, m).

Definition sq_throw {A} (f : string) (a : list fmt_arg) : M A :=
  fun m => (Throw {| kind := PlainError; fmt := f; fargs := a |}, m).

(** Modelled from the spec: [die], the host's fatal exit (not among the
    sources); the process ends with the message. *)
Definition die {A} (msg : string) : M A := fun m => (Die msg, m).

(** [assert] of the C library, taken as enabled. *)
Definition assert (b : bool) (what : string) : M unit :=
  fun m => if b then (Return tt, m) else (AssertFail what, m).

Definition get_scroll : M sq_scroll := fun m => (Return (scroll m), m).
Definition get_errno : M Z := fun m => (Return (errno m), m).

(** ** stdio *)

Definition EBADF : Z := 9.
Definition EINVAL : Z := 22.
Definition EOVERFLOW : Z := 75.

Definition remaining (f : FILE) : list byte := skipn (position f) (contents f).

(** The bytes a read of [count] bytes obtains under event [e]. *)
Definition deliverable (e : os_event) (count : nat) (f : FILE) : list byte :=
  match e with
  | Complete => firstn count (remaining f)
  | Short k | Fault k _ => firstn (Nat.min k count) (remaining f)
  end.

Definition advance (n : nat) (f : FILE) : FILE :=
  {| contents := contents f; position := position f + n;
     eof_ind := eof_ind f; err_ind := err_ind f; is_open := is_open f;
     append := append f |}.

Definition raise_eof (b : bool) (f : FILE) : FILE :=
  {| contents := contents f; position := position f;
     eof_ind := eof_ind f || b; err_ind := err_ind f; is_open := is_open f;
     append := append f |}.

Definition raise_err (f : FILE) : FILE :=
  {| contents := contents f; position := position f;
     eof_ind := eof_ind f; err_ind := true; is_open := is_open f;
     append := append f |}.

(** A call on a stream that was closed is undefined in C.  The model records
    the call and lets it fail with [EBADF]. *)
Definition on_closed {A} (failure : A) (raise : bool) : M A :=
  fun m =>
    let f := file (scroll m) in
    (Return failure, set_errno EBADF (if raise then set_file (raise_err f) m else m)).

(** [fread(dst, 1, count, file)]: the bytes put at [dst]; their number is the
    value [fread] returns. *)
Definition fread (count : Z) : M (list byte) :=
  fun m0 =>
    let m := log_call (Cfread count) m0 in
    let f := file (scroll m) in
    if negb (is_open f) then on_closed [] true m else
    let (e, m) := next_event m in
    let got := deliverable e (Z.to_nat count) f in
    let n := List.length got in
    let f' := advance n f in
    match e with
    | Complete => (Return got, set_file (raise_eof (n <? Z.to_nat count)%nat f') m)
    | Short _ => (Return got, set_file f' m)
    | Fault _ code => (Return got, set_errno code (set_file (raise_err f') m))
    end.

(** The offset at which the next write puts its bytes: the end of the file
    for a stream opened in an append mode, the file position otherwise. *)
Definition landing (f : FILE) : nat :=
  if append f then List.length (contents f) else position f.

(** Putting [bs] into the stream at [landing f], over what was there; an
    offset past the end is first reached with zero bytes, and the file
    position ends up behind the bytes. *)
Definition deposit (f : FILE) (bs : list byte) : FILE :=
  let at_ := landing f in
  let pad := repeat x00 (at_ - List.length (contents f)) in
  {| contents := firstn at_ (contents f ++ pad) ++ bs
                 ++ skipn (at_ + List.length bs) (contents f);
     position := at_ + List.length bs;
     eof_ind := eof_ind f; err_ind := err_ind f; is_open := is_open f;
     append := append f |}.

(** The stream after a transfer of [bs]; a transfer of no bytes leaves the
    stream as it is. *)
Definition overwrite (f : FILE) (bs : list byte) : FILE :=
  match bs with
  | [] => f
  | _ :: _ => deposit f bs
  end.

(** [fwrite(src, 1, length, file)] where [bytes] are the [length] bytes at
    [src]: the number of bytes written.  With a [length] of zero [fwrite]
    returns zero and leaves the stream as it is. *)
Definition fwrite (bytes : list byte) : M Z :=
  fun m0 =>
    let m := log_call (Cfwrite bytes) m0 in
    let f := file (scroll m) in
    if negb (is_open f) then on_closed 0 true m else
    match bytes with
    | [] => (Return 0, m)
    | _ :: _ =>
        let (e, m) := next_event m in
        match e with
        | Complete =>
            (Return (Z.of_nat (List.length bytes)), set_file (overwrite f bytes) m)
        | Short k =>
            let part := firstn k bytes in
            (Return (Z.of_nat (List.length part)), set_file (overwrite f part) m)
        | Fault k code =>
            let part := firstn k bytes in
            (Return (Z.of_nat (List.length part)),
             set_errno code (set_file (raise_err (overwrite f part)) m))
        end
    end.

(** [ferror(file)]. *)
Definition ferror : M bool :=
  fun m0 =>
    let m := log_call Cferror m0 in
    (Return (err_ind (file (scroll m))), m).

Definition seek_base (f : FILE) (whence : Z) : option Z :=
  if whence =? 0 then Some 0
  else if whence =? 1 then Some (Z.of_nat (position f))
  else if whence =? 2 then Some (Z.of_nat (List.length (contents f)))
  else None.

Definition reposition (p : nat) (f : FILE) : FILE :=
  {| contents := contents f; position := p;
     eof_ind := false; err_ind := err_ind f; is_open := is_open f;
     append := append f |}.

(** [fseek(file, offset, whence)]: 0, or -1 on failure. *)
Definition fseek (offset whence : Z) : M Z :=
  fun m0 =>
    let m := log_call (Cfseek offset whence) m0 in
    let f := file (scroll m) in
    if negb (is_open f) then on_closed (-1) false m else
    let (e, m) := next_event m in
    match e with
    | Fault _ code => (Return (-1), set_errno code m)
    | _ =>
        match seek_base f whence with
        | None => (Return (-1), set_errno EINVAL m)
        | Some base =>
            if base + offset <? 0 then (Return (-1), set_errno EINVAL m)
            else (Return 0, set_file (reposition (Z.to_nat (base + offset)) f) m)
        end
    end.

(** [ftell(file)]: the position, or -1 on failure; a position that does
    not fit a [long] is such a failure. *)
Definition ftell : M Z :=
  fun m0 =>
    let m := log_call Cftell m0 in
    let f := file (scroll m) in
    if negb (is_open f) then on_closed (-1) false m else
    let (e, m) := next_event m in
    match e with
    | Fault _ code => (Return (-1), set_errno code m)
    | _ =>
        if 2 ^ 63 <=? Z.of_nat (position f) then (Return (-1), set_errno EOVERFLOW m)
        else (Return (Z.of_nat (position f)), m)
    end.

Definition shut (f : FILE) : FILE :=
  {| contents := contents f; position := position f;
     eof_ind := eof_ind f; err_ind := err_ind f; is_open := false;
     append := append f |}.

(** [fclose(file)]: 0, or [EOF] (-1) on failure; the stream is gone either
    way. *)
Definition fclose : M Z :=
  fun m0 =>
    let m := log_call Cfclose m0 in
    let f := file (scroll m) in
    if negb (is_open f) then on_closed (-1) false m else
    let (e, m) := next_event m in
    match e with
    | Fault _ code => (Return (-1), set_errno code (set_file (shut f) m))
    | _ => (Return 0, set_file (shut f) m)
    end.

(** The line at the head of [bs]: up to and including the first newline. *)
Fixpoint line_of (bs : list byte) : list byte :=
  match bs with
  | [] => []
  | b :: rest => if Byte.eqb b x0a then [b] else b :: line_of rest
  end.

(** [fgetln(file, &length)]: the next line (its length is the list's), or
    [NULL] when there is nothing left or the read fails.  Running into the
    end of the stream leaves [errno] alone. *)
Definition fgetln : M (option (list byte)) :=
  fun m0 =>
    let m := log_call Cfgetln m0 in
    let f := file (scroll m) in
    if negb (is_open f) then on_closed None true m else
    let (e, m) := next_event m in
    match e with
    | Fault _ code => (Return None, set_errno code (set_file (raise_err f) m))
    | _ =>
        match remaining f with
        | [] => (Return None, set_file (raise_eof true f) m)
        | bs => let l := line_of bs in
                (Return (Some l), set_file (advance (List.length l) f) m)
        end
    end.

(** The value [NEW_JOURNEY(_name, _nargs)] assigns to [_name##_journey]. *)
Definition NEW_JOURNEY (name : string) (nargs : Z) (f : native) : sq_value :=
  Other (OJourney 1 {| name := "Scroll." ++ name; nargs := nargs; func := f |}).

(** ** A host runtime to run the model on

    The statements below hold for every host runtime.  To evaluate the model
    on concrete inputs one runtime is fixed here: texts are zero-terminated
    buffers with a recorded length, an allocated text records the size it
    was asked for, conversions are the identity on their own genus. *)

Module Host.

Definition text_allocate (n : Z) : sq_text :=
  {| ptr := repeat x00 (S (Z.to_nat n)); length := n |}.

Definition text_new (p : list byte) : sq_text :=
  {| ptr := p ++ [x00]; length := Z.of_nat (List.length p) |}.

Definition typename (v : sq_value) : string :=
  match sq_value_genus_tag v with
  | SQ_G_NUMERAL => "numeral"
  | SQ_G_TEXT => "text"
  | SQ_G_OTHER => "other"
  | SQ_G_REST _ => "value"
  end.

Definition to_text (v : sq_value) : sq_text :=
  match v with
  | Text t => t
  | _ => text_new (list_byte_of_string (typename v))
  end.

Definition to_numeral (v : sq_value) : Z :=
  match v with
  | Numeral n => n
  | _ => 0
  end.

Definition strerror (e : Z) : string :=
  if e =? 0 then "Undefined error: 0"
  else if e =? 9 then "Bad file descriptor"
  else "Input/output error".

(** A stream on [data] as [fopen] hands it out in a mode that is not an
    append mode, and one opened in an append mode. *)
Definition stream (data : list byte) : FILE :=
  {| contents := data; position := 0; eof_ind := false; err_ind := false;
     is_open := true; append := false |}.

Definition appending (data : list byte) : FILE :=
  {| contents := data; position := 0; eof_ind := false; err_ind := false;
     is_open := true; append := true |}.

(** A file system in which every open yields an empty stream, in the mode
    asked for. *)
Definition fopen_empty (_ mode : string) : option FILE :=
  Some (if append_mode mode then appending [] else stream []).

(** A machine whose scroll was opened on a stream holding [data], with
    the environment following [events]. *)
Definition machine_on (data : list byte) (events : list os_event) : machine :=
  {| scroll := {| file := stream data; filename := "t.txt"; mode := "w+" |};
     script := events; log := []; errno := 0;
     write_journey := NEW_JOURNEY "write" 2 Fwrite;
     read_journey := NEW_JOURNEY "read" 2 Fread;
     seek_journey := NEW_JOURNEY "seek" 3 Fseek;
     close_journey := NEW_JOURNEY "close" 1 Fclose |}.

(** The same for a scroll opened in mode "a+" on a file holding [data]. *)
Definition machine_appending (data : list byte) (events : list os_event) : machine :=
  {| scroll := {| file := appending data; filename := "t.txt"; mode := "a+" |};
     script := events; log := []; errno := 0;
     write_journey := NEW_JOURNEY "write" 2 Fwrite;
     read_journey := NEW_JOURNEY "read" 2 Fread;
     seek_journey := NEW_JOURNEY "seek" 3 Fseek;
     close_journey := NEW_JOURNEY "close" 1 Fclose |}.

Definition receiver : sq_value := Other OScroll.

Definition call (argv : list sq_value) : sq_args := {| pargv := argv; kwargc := 0 |}.

End Host.

(** ** Predicates used in the statements *)

(** The shape of a method call: the scroll as receiver, then [rest], and no
    keyword arguments. *)
Definition call_of (args : sq_args) (rest : list sq_value) : Prop :=
  pargv args = Other OScroll :: rest /\ kwargc args = 0.

(** A text whose buffer is [bytes] closed by a zero byte, with [length] the
    number of those bytes. *)
Definition zero_terminated (t : sq_text) (bytes : list byte) : Prop :=
  ptr t = bytes ++ [x00] /\ length t = Z.of_nat (List.length bytes).

(** An allocator that records the size it was asked for and hands out a
    buffer of one byte more. *)
Definition records_request (allocate : Z -> sq_text) : Prop :=
  forall n, 0 <= n ->
    length (allocate n) = n /\ List.length (ptr (allocate n)) = S (Z.to_nat n).

(** The attribute names [sq_scroll_get_attr] compares with, and "close". *)
Definition attribute_names : list string :=
  ["filename"; "mode"; "write"; "read"; "seek"; "close"].

(** What [sq_scroll_init] sets up and no later call assigns: the scroll's
    two names and the four journey variables. *)
Definition names_and_journeys (m : machine)
  : string * string * (sq_value * sq_value * sq_value * sq_value) :=
  (filename (scroll m), mode (scroll m),
   (write_journey m, read_journey m, seek_journey m, close_journey m)).

(** A computation that leaves them alone, however it ends. *)
Definition keeps_names {A} (c : M A) : Prop :=
  forall m, names_and_journeys (snd (c m)) = names_and_journeys m.

(** A handle opened as [fname] in mode [fmode], at any later time. *)
Definition opened_as (fname fmode : string) (m : machine) : Prop :=
  names_and_journeys m
  = (fname, fmode,
     (NEW_JOURNEY "write" 2 Fwrite, NEW_JOURNEY "read" 2 Fread,
      NEW_JOURNEY "seek" 3 Fseek, NEW_JOURNEY "close" 1 Fclose)).

(** A computation that only adds to the record of stdio calls, and one
    whose first addition is the call [c]. *)
Definition grows {A} (comp : M A) : Prop :=
  forall m, exists rest, log (snd (comp m)) = log m ++ rest.

Definition starts_with {A} (c : os_call) (comp : M A) : Prop :=
  forall m, exists rest, log (snd (comp m)) = log m ++ c :: rest.

(** A computation that leaves an observation [proj] of the machine as it
    was, however it ends. *)
Definition preserves {A X} (proj : machine -> X) (c : M A) : Prop :=
  forall m, proj (snd (c m)) = proj m.

(** A computation that never ends in a failed assertion. *)
Definition never_asserts {A} (c : M A) : Prop :=
  forall m what, fst (c m) <> AssertFail what.

Definition stream_contents (m : machine) : list byte := contents (file (scroll m)).
Definition stream_position (m : machine) : nat := position (file (scroll m)).
Definition stream_is_open (m : machine) : bool := is_open (file (scroll m)).
Definition stream_error (m : machine) : bool := err_ind (file (scroll m)).

(** A computation that keeps a property [P] of the machine once it holds,
    however it ends. *)
Definition maintains {A} (P : machine -> Prop) (c : M A) : Prop :=
  forall m, P m -> P (snd (c m)).

(** An open stream with no error pending, in an environment that carries
    out every call in full. *)
Definition settled (m : machine) : Prop :=
  is_open (file (scroll m)) = true /\ script m = [] /\
  err_ind (file (scroll m)) = false.

(** *** Reading from the stream *)

Definition no_fault (e : os_event) : bool :=
  match e with Fault _ _ => false | _ => true end.

(** The stream is open and the environment will not fail a call. *)
Definition calm (m : machine) : Prop :=
  is_open (file (scroll m)) = true /\ forallb no_fault (script m) = true.

(** [m'] is [m] after reads that consumed [k] bytes of the stream and did
    nothing else to it. *)
Definition reads (k : nat) (m m' : machine) : Prop :=
  contents (file (scroll m')) = contents (file (scroll m)) /\
  position (file (scroll m')) = (position (file (scroll m)) + k)%nat /\
  is_open (file (scroll m')) = is_open (file (scroll m)) /\
  filename (scroll m') = filename (scroll m) /\
  (k <= List.length (remaining (file (scroll m))))%nat /\
  (exists j, script m' = skipn j (script m)) /\
  (exists counts, log m' = log m ++ map Cfread counts) /\
  (calm m -> err_ind (file (scroll m')) = err_ind (file (scroll m))).

(** ** scroll.c *)

Section Scroll.

#[local] Set Default Proof Using "Type".

(** The parts of the host runtime and of the C library that [scroll.c]
    calls and that live in other files: the text constructors of
    [squire/text.h], the generic conversions and the type name of
    [squire/value.h], [strerror], and what [fopen] answers for a file
    name and a mode ([None] for [NULL]; the stream it hands out carries
    the access mode it was opened in). *)
Variable sq_text_allocate : Z -> sq_text.
Variable sq_text_new : list byte -> sq_text.
Variable sq_value_to_text : sq_value -> sq_text.
Variable sq_value_to_numeral : sq_value -> Z.
Variable sq_value_typename : sq_value -> string.
Variable strerror : Z -> string.
Variable os_fopen : string -> string -> option FILE.

(** [strdup] of a C string held as a [string]. *)
Definition strdup (s : string) : list byte := cstr (list_byte_of_string s).

Definition fopen (filename mode : string) : M (option FILE) :=
  fun m => (Return (os_fopen filename mode), log_call (Cfopen filename mode) m).

Definition sq_scroll_init (filename mode : string) : M unit :=
  f <- fopen filename mode ;;
  match f with
  | None =>
      (* scroll->file = NULL, assigned before the test *)
      (fun m => (Return tt, set_file null_file m)) ;;
      sq_throw_io "cannot open file '%s'" [ArgStr filename]
  | Some f =>
      fun m =>
        (Return tt,
         set_journeys (NEW_JOURNEY "write" 2 Fwrite) (NEW_JOURNEY "read" 2 Fread)
                      (NEW_JOURNEY "seek" 3 Fseek) (NEW_JOURNEY "close" 1 Fclose)
           (set_scroll {| file := f; filename := filename; mode := mode |} m))
  end.

(** [sq_scroll_dump]: the format and the arguments handed to [fprintf]. *)
Definition sq_scroll_dump (s : sq_scroll) : string * list fmt_arg :=
  ("Scroll(%s, mode=%s)", [ArgStr (filename s); ArgStr (mode s)]).

Definition sq_scroll_deallocate : M unit :=
  (* free(scroll->filename); free(scroll->mode); *)
  _ <- fclose ;;
  ret tt.

Definition sq_scroll_get_attr (m : machine) (attr : string) : sq_value :=
  if String.eqb attr "filename" then Text (sq_text_new (strdup (filename (scroll m))))
  else if String.eqb attr "mode" then Text (sq_text_new (strdup (mode (scroll m))))
  else if String.eqb attr "write" then write_journey m
  else if String.eqb attr "read" then read_journey m
  else if String.eqb attr "seek" then seek_journey m
  else SQ_UNDEFINED.

Definition sq_scroll_close : M unit :=
  r <- fclose ;;
  if negb (r =? 0) then sq_throw_io "unable to close scroll '%s'" []
  else ret tt.

(** The [while] loop of [sq_scroll_read]: the final [position] and the
    buffer.  [nread] is an [unsigned], [position] a [size_t]. *)
Fixpoint read_loop (fuel : nat) (length position : Z) (buf : list byte)
  : M (Z * list byte) :=
  match fuel with
  | O => fun m => (OutOfFuel, m)
  | S fuel' =>
      got <- fread (to_size_t (length - position)) ;;
      let nread := to_unsigned (Z.of_nat (List.length got)) in
      let buf' := store buf position got in
      if negb (nread =? 0)
      then read_loop fuel' length (to_size_t (position + nread)) buf'
      else ret (position, buf')
  end.

Definition sq_scroll_read (length : Z) : M sq_text :=
  let text := sq_text_allocate length in
  r <- read_loop (S (Z.to_nat length)) length 0 (ptr text) ;;
  let '(position, buf) := r in
  e <- ferror ;;
  if e then
    (* sq_text_free(text); *)
    s <- get_scroll ;;
    sq_throw_io "unable to read %zu bytes from '%s'" [ArgNum length; ArgStr (filename s)]
  else
    ret (with_ptr text (store buf position [x00])).

Definition sq_scroll_read_all : M sq_text :=
  die "todo: sq_scroll_read_all".

Definition sq_scroll_write (ptr : list byte) (length : Z) : M unit :=
  n <- fwrite (firstn (Z.to_nat length) ptr) ;;
  if n <? length then
    s <- get_scroll ;;
    sq_throw_io "cannot write %zu bytes to '%s'" [ArgNum length; ArgStr (filename s)]
  else ret tt.

Definition sq_scroll_tell : M Z :=
  value <- ftell ;;
  if value <? 0 then
    s <- get_scroll ;;
    sq_throw_io "cannot get offset for '%s'" [ArgStr (filename s)]
  else ret (to_size_t value).

Definition sq_scroll_seek (offset whence : Z) : M unit :=
  r <- fseek offset whence ;;
  if negb (r =? 0) then
    s <- get_scroll ;;
    sq_throw_io "cannot seek '%d' for '%s'" [ArgNum whence; ArgStr (filename s)]
  else ret tt.

(** Modelled from the spec: [sq_other_as_scroll(sq_value_as_other(v))], the
    host's casts (not among the sources), taken as checked: a receiver that
    is no scroll fails an assertion. *)
Definition as_scroll (v : sq_value) : M unit :=
  match v with
  | Other OScroll => ret tt
  | _ => fun m => (AssertFail "sq_other_as_scroll", m)
  end.

(** [sq_value_as_numeral] and [sq_value_as_text] are only called under the
    matching [case] of [read_func]'s switch. *)
Definition sq_value_as_numeral (v : sq_value) : Z :=
  match v with Numeral n => n | _ => 0 end.

Definition sq_value_as_text (v : sq_value) : sq_text :=
  match v with Text t => t | _ => {| ptr := []; length := 0 |} end.

Definition write_func (args : sq_args) : M sq_value :=
  assert (pargc args =? 2) "args.pargc == 2" ;;
  assert (kwargc args =? 0) "args.kwargc == 0" ;;
  as_scroll (parg args 0) ;;
  let text := sq_value_to_text (parg args 1) in
  sq_scroll_write (ptr text) (length text) ;;
  ret SQ_NI.

Definition read_func (args : sq_args) : M sq_value :=
  assert (pargc args =? 2) "args.pargc == 2" ;;
  assert (kwargc args =? 0) "args.kwargc == 0" ;;
  as_scroll (parg args 0) ;;
  let arg := parg args 1 in
  let invalid : M sq_value :=
    sq_throw "invalid read arugment kind '%s'" [ArgStr (sq_value_typename arg)] in
  match sq_value_genus_tag arg with
  | SQ_G_NUMERAL =>
      if sq_value_as_numeral arg <? 0 then
        sq_throw "can only read nonnegative amounts" []
      else
        t <- sq_scroll_read (to_size_t (sq_value_as_numeral arg)) ;;
        ret (Text t)
  | SQ_G_TEXT =>
      if negb (strcmp_eq (ptr (sq_value_as_text arg)) [x0a; x00]) then
        die "todo: non-newline gets"
      else
        result <- fgetln ;;
        match result with
        | None => e <- get_errno ;; sq_throw (strerror e) []
        | Some line =>
            ret (Text (sq_text_new (strndup line (List.length line))))
        end
  | SQ_G_OTHER =>
      if sq_value_eqb_ni arg then
        t <- sq_scroll_read_all ;;
        ret (Text t)
      else invalid
  | SQ_G_REST _ => invalid
  end.

Definition seek_func (args : sq_args) : M sq_value :=
  assert (pargc args =? 3) "args.pargc == 3" ;;
  assert (kwargc args =? 0) "args.kwargc == 0" ;;
  as_scroll (parg args 0) ;;
  let offset := sq_value_to_numeral (parg args 1) in
  let whence := sq_value_to_numeral (parg args 2) in
  sq_scroll_seek (to_long offset) (to_int whence) ;;
  p <- sq_scroll_tell ;;
  ret (Numeral (to_long p)).

Definition close_func (args : sq_args) : M sq_value :=
  assert (pargc args =? 1) "args.pargc == 1" ;;
  assert (kwargc args =? 0) "args.kwargc == 0" ;;
  as_scroll (parg args 0) ;;
  sq_scroll_close ;;
  ret SQ_NI.

(** The function [NEW_JOURNEY] stores in a journey's [func] field. *)
Definition native_func (f : native) : sq_args -> M sq_value :=
  match f with
  | Fwrite => write_func
  | Fread => read_func
  | Fseek => seek_func
  | Fclose => close_func
  end.

(** A run of method calls on the scroll, each made through the function of
    its journey.  The run goes on after a call that returned or raised (a
    script can catch what was raised) and ends where the process ends. *)
Fixpoint run_calls (calls : list (native * sq_args)) (m : machine) : machine :=
  match calls with
  | [] => m
  | (f, args) :: rest =>
      match native_func f args m with
      | (Return _, m') | (Throw _, m') => run_calls rest m'
      | (_, m') => m'
      end
  end.

(** ** Properties *)

(** Unfolding the monad's plumbing. *)
Ltac run :=
  unfold bind, ret, assert, as_scroll, sq_throw, sq_throw_io, die, get_scroll,
    get_errno, pargc, parg;
  simpl.

(** *** The monad's equations *)

Lemma bind_return {A B} (c : M A) (k : A -> M B) (m m' : machine) (a : A) :
  c m = (Return a, m') -> bind c k m = k a m'.
Proof. intros H. unfold bind. rewrite H. reflexivity. Qed.

Lemma bind_throw {A B} (c : M A) (k : A -> M B) (m m' : machine) (e : exception) :
  c m = (Throw e, m') -> bind c k m = (Throw e, m').
Proof. intros H. unfold bind. rewrite H. reflexivity. Qed.

(** *** stdio: every call is recorded, and returns *)

(** Case analysis of one stdio call [f]: stream open or closed, the next
    scripted event, and the tests inside. *)
Ltac stdio f :=
  unfold f, on_closed, next_event;
  repeat match goal with
         | |- context [if negb (is_open ?f) then _ else _] => destruct (is_open f)
         | |- context [match script ?m with _ => _ end] => destruct (script m) as [|[| |] ?]
         | |- context [match seek_base ?f ?w with _ => _ end] => destruct (seek_base f w)
         | |- context [if ?b then _ else _] => destruct b
         | |- context [match remaining ?f with _ => _ end] => destruct (remaining f)
         | _ => progress simpl
         end.

Lemma fread_log count m : log (snd (fread count m)) = log m ++ [Cfread count].
Proof. stdio fread; reflexivity. Qed.

Lemma fwrite_log bytes m : log (snd (fwrite bytes m)) = log m ++ [Cfwrite bytes].
Proof. stdio fwrite; reflexivity. Qed.

Lemma fseek_log offset whence m :
  log (snd (fseek offset whence m)) = log m ++ [Cfseek offset whence].
Proof. stdio fseek; reflexivity. Qed.

Lemma ftell_log m : log (snd (ftell m)) = log m ++ [Cftell].
Proof. stdio ftell; reflexivity. Qed.

Lemma fclose_log m : log (snd (fclose m)) = log m ++ [Cfclose].
Proof. stdio fclose; reflexivity. Qed.

Lemma fgetln_log m : log (snd (fgetln m)) = log m ++ [Cfgetln].
Proof. stdio fgetln; reflexivity. Qed.

Lemma ferror_log m : log (snd (ferror m)) = log m ++ [Cferror].
Proof. reflexivity. Qed.

Lemma fread_returns count m : exists got, fst (fread count m) = Return got.
Proof. stdio fread; eexists; reflexivity. Qed.

Lemma fwrite_returns bytes m : exists n, fst (fwrite bytes m) = Return n.
Proof. stdio fwrite; eexists; reflexivity. Qed.

Lemma fseek_returns offset whence m :
  fst (fseek offset whence m) = Return 0 \/ fst (fseek offset whence m) = Return (-1).
Proof. stdio fseek; auto. Qed.

Lemma ftell_returns m : exists p, fst (ftell m) = Return p.
Proof. stdio ftell; eexists; reflexivity. Qed.

Lemma fclose_returns m : fst (fclose m) = Return 0 \/ fst (fclose m) = Return (-1).
Proof. stdio fclose; auto. Qed.

Lemma fgetln_returns m : exists r, fst (fgetln m) = Return r.
Proof. stdio fgetln; eexists; reflexivity. Qed.

(** The scroll's names are not touched by stdio. *)
Lemma fwrite_names bytes m :
  filename (scroll (snd (fwrite bytes m))) = filename (scroll m).
Proof. stdio fwrite; reflexivity. Qed.

Lemma fseek_names offset whence m :
  filename (scroll (snd (fseek offset whence m))) = filename (scroll m).
Proof. stdio fseek; reflexivity. Qed.

Lemma ftell_names m : filename (scroll (snd (ftell m))) = filename (scroll m).
Proof. stdio ftell; reflexivity. Qed.

(** *** What no call assigns *)

Lemma keeps_ret {A} (a : A) : keeps_names (ret a).
Proof. intros m. reflexivity. Qed.

Lemma keeps_bind {A B} (c : M A) (k : A -> M B) :
  keeps_names c -> (forall a, keeps_names (k a)) -> keeps_names (bind c k).
Proof.
  intros Hc Hk m. unfold bind. specialize (Hc m).
  destruct (c m) as [[a|e|msg|w|] m']; simpl in *; try exact Hc.
  rewrite (Hk a m'). exact Hc.
Qed.

Lemma keeps_sq_throw {A} f a : keeps_names (@sq_throw A f a).
Proof. intros m. reflexivity. Qed.

Lemma keeps_sq_throw_io {A} f a : keeps_names (@sq_throw_io A f a).
Proof. intros m. reflexivity. Qed.

Lemma keeps_die {A} msg : keeps_names (@die A msg).
Proof. intros m. reflexivity. Qed.

Lemma keeps_assert b what : keeps_names (assert b what).
Proof. intros m. unfold assert. destruct b; reflexivity. Qed.

Lemma keeps_get_scroll : keeps_names get_scroll.
Proof. intros m. reflexivity. Qed.

Lemma keeps_get_errno : keeps_names get_errno.
Proof. intros m. reflexivity. Qed.

Lemma keeps_fread count : keeps_names (fread count).
Proof. intros m. stdio fread; reflexivity. Qed.

Lemma keeps_fwrite bytes : keeps_names (fwrite bytes).
Proof. intros m. stdio fwrite; reflexivity. Qed.

Lemma keeps_fseek offset whence : keeps_names (fseek offset whence).
Proof. intros m. stdio fseek; reflexivity. Qed.

Lemma keeps_ftell : keeps_names ftell.
Proof. intros m. stdio ftell; reflexivity. Qed.

Lemma keeps_fclose : keeps_names fclose.
Proof. intros m. stdio fclose; reflexivity. Qed.

Lemma keeps_ferror : keeps_names ferror.
Proof. intros m. reflexivity. Qed.

Lemma keeps_fgetln : keeps_names fgetln.
Proof. intros m. stdio fgetln; reflexivity. Qed.

Lemma keeps_as_scroll v : keeps_names (as_scroll v).
Proof. intros m. unfold as_scroll. destruct v as [| | | | |[| |]|]; reflexivity. Qed.

Create HintDb names.
#[local] Hint Resolve keeps_ret keeps_sq_throw keeps_sq_throw_io keeps_die keeps_assert
  keeps_get_scroll keeps_get_errno keeps_fread keeps_fwrite keeps_fseek keeps_ftell
  keeps_fclose keeps_ferror keeps_fgetln keeps_as_scroll : names.

(** Walking through a computation built from the pieces above. *)
Ltac keeps :=
  repeat (intros;
          match goal with
          | |- keeps_names (bind _ _) => apply keeps_bind
          | |- keeps_names (if ?b then _ else _) => destruct b
          | |- keeps_names (match ?x with _ => _ end) => destruct x
          | |- keeps_names _ => solve [auto with names]
          end).

Lemma keeps_read_loop (fuel : nat) :
  forall N pos buf, keeps_names (read_loop fuel N pos buf).
Proof.
  clear.
  induction fuel as [|fuel IH]; intros N pos buf; cbn [read_loop].
  - intros m. reflexivity.
  - apply keeps_bind; [auto with names|]. intros got.
    destruct (negb _); [apply IH | auto with names].
Qed.

Lemma keeps_sq_scroll_read N : keeps_names (sq_scroll_read N).
Proof.
  unfold sq_scroll_read. apply keeps_bind; [apply keeps_read_loop|].
  intros [position buf]. keeps.
Qed.

Lemma keeps_write_func args : keeps_names (write_func args).
Proof. unfold write_func, sq_scroll_write. keeps. Qed.

Lemma keeps_seek_func args : keeps_names (seek_func args).
Proof. unfold seek_func, sq_scroll_seek, sq_scroll_tell. keeps. Qed.

Lemma keeps_close_func args : keeps_names (close_func args).
Proof. unfold close_func, sq_scroll_close. keeps. Qed.

Lemma keeps_read_func args : keeps_names (read_func args).
Proof.
  unfold read_func, sq_scroll_read_all.
  do 3 (apply keeps_bind; [auto with names | intros _]).
  destruct (sq_value_genus_tag (parg args 1)); keeps.
  apply keeps_sq_scroll_read.
Qed.

(** A handle stays opened under the names it was opened with, whatever
    methods are called on it and however they end. *)
Lemma methods_keep_handle (fname fmode : string) (m : machine) (args : sq_args) :
  opened_as fname fmode m ->
  opened_as fname fmode (snd (write_func args m)) /\
  opened_as fname fmode (snd (read_func args m)) /\
  opened_as fname fmode (snd (seek_func args m)) /\
  opened_as fname fmode (snd (close_func args m)).
Proof.
  unfold opened_as. intros H.
  rewrite keeps_write_func, keeps_read_func, keeps_seek_func, keeps_close_func.
  auto.
Qed.

(** *** Attributes *)

Lemma sq_scroll_init_opens fname fmode m m' :
  sq_scroll_init fname fmode m = (Return tt, m') ->
  filename (scroll m') = fname /\ mode (scroll m') = fmode /\
  write_journey m' = NEW_JOURNEY "write" 2 Fwrite /\
  read_journey m' = NEW_JOURNEY "read" 2 Fread /\
  seek_journey m' = NEW_JOURNEY "seek" 3 Fseek /\
  close_journey m' = NEW_JOURNEY "close" 1 Fclose /\
  os_fopen fname fmode = Some (file (scroll m')).
Proof.
  unfold sq_scroll_init, fopen. run.
  destruct (os_fopen fname fmode) as [f|]; [|discriminate].
  intros H. injection H as <-. simpl. repeat split; reflexivity.
Qed.

Lemma get_attr_other (m : machine) (attr : string) :
  ~ In attr attribute_names -> sq_scroll_get_attr m attr = SQ_UNDEFINED.
Proof.
  intros H. unfold sq_scroll_get_attr.
  repeat match goal with
         | |- context [String.eqb attr ?s] =>
             destruct (String.eqb_spec attr s) as [->|_];
             [exfalso; apply H; simpl; tauto|]
         end.
  reflexivity.
Qed.

Lemma sq_scroll_init_opened fname fmode m m' :
  sq_scroll_init fname fmode m = (Return tt, m') -> opened_as fname fmode m'.
Proof.
  intros H.
  destruct (sq_scroll_init_opens _ _ _ _ H) as (Hf & Hm & Hw & Hr & Hs & Hc & _).
  unfold opened_as, names_and_journeys. congruence.
Qed.

(** C4, as the code has it.  On a handle opened as [fname] in mode [fmode],
    at any time after [sq_scroll_init] set it up, [sq_scroll_get_attr]
    answers "filename" with a text made from a duplicate of the file name,
    "mode" with a text made from a duplicate of the mode, "write", "read"
    and "seek" with the builtin journey that [sq_scroll_init] created for
    that name, and every name other than these five and "close" with
    [SQ_UNDEFINED].  The texts are new values built from [strdup]'s result;
    the handle is only read. *)
Theorem get_attr_of_handle (fname fmode attr : string) (m : machine) :
  opened_as fname fmode m ->
  (attr = "filename" ->
   sq_scroll_get_attr m attr = Text (sq_text_new (strdup fname))) /\
  (attr = "mode" ->
   sq_scroll_get_attr m attr = Text (sq_text_new (strdup fmode))) /\
  (attr = "write" ->
   sq_scroll_get_attr m attr
   = Other (OJourney 1 {| name := "Scroll.write"; nargs := 2; func := Fwrite |})) /\
  (attr = "read" ->
   sq_scroll_get_attr m attr
   = Other (OJourney 1 {| name := "Scroll.read"; nargs := 2; func := Fread |})) /\
  (attr = "seek" ->
   sq_scroll_get_attr m attr
   = Other (OJourney 1 {| name := "Scroll.seek"; nargs := 3; func := Fseek |})) /\
  (~ In attr attribute_names -> sq_scroll_get_attr m attr = SQ_UNDEFINED).
Proof.
  unfold opened_as, names_and_journeys. intros Hopened.
  injection Hopened as Hf Hm Hw Hr Hs Hc.
  repeat split; intros H; try (apply get_attr_other; exact H);
    subst attr; unfold sq_scroll_get_attr; simpl;
    rewrite ?Hf, ?Hm, ?Hw, ?Hr, ?Hs; reflexivity.
Qed.

(** *** read with the absence-of-value sentinel *)

(** C6, as the code has it.  [read] with [SQ_NI] ends the process with the
    diagnostic "todo: sq_scroll_read_all"; the stream is not read and the
    machine is left as it was. *)
Theorem read_ni_is_a_stub (args : sq_args) (m : machine) :
  call_of args [SQ_NI] ->
  read_func args m = (Die "todo: sq_scroll_read_all", m).
Proof.
  intros [Hargs Hkw]. unfold read_func, sq_scroll_read_all. run.
  rewrite Hargs, Hkw. reflexivity.
Qed.

(** *** close and deallocate *)

Lemma sq_scroll_close_outcome m :
  (fst (fclose m) = Return 0 /\ sq_scroll_close m = (Return tt, snd (fclose m))) \/
  (fst (fclose m) = Return (-1) /\
   sq_scroll_close m
   = (Throw {| kind := IOError; fmt := "unable to close scroll '%s'"; fargs := [] |},
      snd (fclose m))).
Proof.
  unfold sq_scroll_close. run.
  destruct (fclose_returns m) as [H|H]; destruct (fclose m) as [r m']; simpl in *;
    subst r; simpl; auto.
Qed.

(** *** write *)

Lemma firstn_length_exact {A} (n : Z) (l : list A) :
  0 <= n <= Z.of_nat (List.length l) ->
  Z.of_nat (List.length (firstn (Z.to_nat n) l)) = n.
Proof. intros H. rewrite List.length_firstn. lia. Qed.

(** What [sq_scroll_write] does with the count [fwrite] reports. *)
Lemma sq_scroll_write_outcome (p : list byte) (len : Z) (m : machine) :
  exists n, fst (fwrite (firstn (Z.to_nat len) p) m) = Return n /\
    sq_scroll_write p len m
    = (if n <? len
       then Throw {| kind := IOError; fmt := "cannot write %zu bytes to '%s'";
                     fargs := [ArgNum len; ArgStr (filename (scroll m))] |}
       else Return tt,
       snd (fwrite (firstn (Z.to_nat len) p) m)).
Proof.
  destruct (fwrite_returns (firstn (Z.to_nat len) p) m) as [n Hn].
  exists n. split; [exact Hn|].
  pose proof (fwrite_names (firstn (Z.to_nat len) p) m) as Hname.
  unfold sq_scroll_write. run.
  destruct (fwrite (firstn (Z.to_nat len) p) m) as [r m']. simpl in *. subst r.
  destruct (n <? len); [rewrite Hname|]; reflexivity.
Qed.

Lemma write_func_outcome (args : sq_args) (v : sq_value) (m : machine) :
  call_of args [v] ->
  let t := sq_value_to_text v in
  let bytes := firstn (Z.to_nat (length t)) (ptr t) in
  exists n, fst (fwrite bytes m) = Return n /\
    write_func args m
    = (if n <? length t
       then Throw {| kind := IOError; fmt := "cannot write %zu bytes to '%s'";
                     fargs := [ArgNum (length t); ArgStr (filename (scroll m))] |}
       else Return SQ_NI,
       snd (fwrite bytes m)).
Proof.
  intros [Hargs Hkw] t bytes.
  destruct (sq_scroll_write_outcome (ptr t) (length t) m) as (n & Hn & Hw).
  exists n. split; [exact Hn|].
  unfold write_func. run. rewrite Hargs, Hkw. simpl.
  fold t. rewrite Hw. fold bytes. destruct (n <? length t); reflexivity.
Qed.

Lemma set_file_same (m : machine) : set_file (file (scroll m)) m = m.
Proof. destruct m as [[f fname fmode] sc lg en w r s c]. reflexivity. Qed.

(** A transfer touches neither the flags of the stream nor its
    indicators. *)
Lemma overwrite_flags (f : FILE) (bs : list byte) :
  is_open (overwrite f bs) = is_open f /\ err_ind (overwrite f bs) = err_ind f /\
  eof_ind (overwrite f bs) = eof_ind f /\ append (overwrite f bs) = append f.
Proof. destruct bs; repeat split. Qed.

(** A write the environment carried out in full leaves the bytes in the
    stream from the landing offset on, and the position behind them. *)
Lemma overwrite_some (f : FILE) (bs : list byte) :
  bs <> [] -> overwrite f bs = deposit f bs.
Proof. destruct bs; [congruence | reflexivity]. Qed.

Lemma deposit_at (f : FILE) (bs : list byte) :
  firstn (List.length bs) (skipn (landing f) (contents (deposit f bs))) = bs.
Proof.
  unfold deposit. cbn [contents].
  set (pre := firstn (landing f)
                (contents f ++ repeat x00 (landing f - List.length (contents f)))).
  assert (Hpre : List.length pre = landing f).
  { unfold pre. rewrite List.length_firstn, List.length_app, List.repeat_length. lia. }
  rewrite <- Hpre at 1. rewrite List.skipn_app, List.skipn_all, Nat.sub_diag.
  rewrite List.skipn_0, List.app_nil_l.
  rewrite List.firstn_app, List.firstn_all, Nat.sub_diag, List.firstn_0.
  apply List.app_nil_r.
Qed.

Lemma overwrite_at (f : FILE) (bs : list byte) :
  firstn (List.length bs) (skipn (landing f) (contents (overwrite f bs))) = bs /\
  (bs <> [] -> position (overwrite f bs) = (landing f + List.length bs)%nat).
Proof.
  destruct bs as [|b bs]; [split; [reflexivity | congruence]|].
  rewrite overwrite_some by congruence.
  split; [apply deposit_at | reflexivity].
Qed.

(** [fwrite] of at least one byte on an open stream. *)
Lemma fwrite_some (bs : list byte) (m : machine) :
  bs <> [] -> is_open (file (scroll m)) = true ->
  fwrite bs m
  = (let m1 := log_call (Cfwrite bs) m in
     let f := file (scroll m) in
     match next_event m1 with
     | (Complete, m2) =>
         (Return (Z.of_nat (List.length bs)), set_file (overwrite f bs) m2)
     | (Short k, m2) =>
         (Return (Z.of_nat (List.length (firstn k bs))),
          set_file (overwrite f (firstn k bs)) m2)
     | (Fault k code, m2) =>
         (Return (Z.of_nat (List.length (firstn k bs))),
          set_errno code (set_file (raise_err (overwrite f (firstn k bs))) m2))
     end).
Proof.
  intros Hbs Hopen. unfold fwrite. cbn [log_call scroll file].
  rewrite Hopen. cbn [negb]. destruct bs as [|b bs]; [congruence|].
  destruct (next_event _) as [[|k|k code] m2]; reflexivity.
Qed.

Lemma fwrite_in_full (bs : list byte) (m : machine) :
  is_open (file (scroll m)) = true ->
  fst (fwrite bs m) = Return (Z.of_nat (List.length bs)) ->
  contents (file (scroll (snd (fwrite bs m)))) = contents (overwrite (file (scroll m)) bs) /\
  position (file (scroll (snd (fwrite bs m)))) = position (overwrite (file (scroll m)) bs).
Proof.
  intros Hopen.
  destruct bs as [|b bs].
  { unfold fwrite. cbn [log_call scroll file]. rewrite Hopen. intros _.
    split; reflexivity. }
  rewrite (fwrite_some (b :: bs) m) by (congruence || exact Hopen).
  remember (b :: bs) as l eqn:Hl. cbv zeta. unfold next_event.
  cbn [log_call script].
  destruct (script m) as [|[|k|k code] rest];
    cbn [fst snd set_file set_scroll set_script set_errno scroll file raise_err
         contents position];
    intros H; auto;
    injection H as H; apply Nat2Z.inj in H;
    rewrite List.length_firstn in H;
    rewrite (List.firstn_all2 l) by lia; auto.
Qed.

Lemma fwrite_at_most (bs : list byte) (m : machine) (n : Z) :
  fst (fwrite bs m) = Return n -> 0 <= n <= Z.of_nat (List.length bs).
Proof.
  destruct (is_open (file (scroll m))) eqn:Hopen.
  - destruct bs as [|b bs].
    { unfold fwrite. cbn [log_call scroll file]. rewrite Hopen.
      intros H; injection H as <-. simpl. lia. }
    rewrite (fwrite_some (b :: bs) m) by (congruence || exact Hopen).
    remember (b :: bs) as l eqn:Hl. cbv zeta. unfold next_event. cbn [log_call script].
    destruct (script m) as [|[|k|k code] rest]; cbn [fst]; intros H; injection H as <-;
      rewrite ?List.length_firstn; lia.
  - unfold fwrite, on_closed. cbn [log_call scroll file]. rewrite Hopen.
    intros H; injection H as <-. lia.
Qed.

(** On an open stream, in an environment that fails no call, [fwrite]
    transfers all it was given. *)
Lemma fwrite_complete (bs : list byte) (m : machine) :
  is_open (file (scroll m)) = true -> script m = [] ->
  fwrite bs m
  = (Return (Z.of_nat (List.length bs)),
     set_file (overwrite (file (scroll m)) bs) (log_call (Cfwrite bs) m)).
Proof.
  intros Hopen Hscript. unfold fwrite, next_event. cbn [log_call scroll file script].
  rewrite Hopen, Hscript. cbn [negb]. destruct bs as [|b bs]; [|reflexivity].
  cbn [overwrite List.length Z.of_nat].
  rewrite <- (set_file_same (log_call (Cfwrite []) m)) at 1. reflexivity.
Qed.

(** C7, as the code has it.  [write] of a value whose text is [t] hands
    [fwrite] exactly the first [t.length] bytes of [t]'s buffer, once, and
    does nothing else to the machine.  When [fwrite] reports fewer bytes
    than that, the call raises the IO error "cannot write %zu bytes to
    '%s'" with the requested length and the file name.  When it reports all
    of them, as it does in an environment that fails no call, the call
    returns [SQ_NI] and the stream holds the bytes from the landing offset
    on, with the position behind them: the offset is the current position,
    or the end of the file for a stream opened in an append mode. *)
Theorem write_func_writes_text (args : sq_args) (v : sq_value) (t : sq_text) (m : machine) :
  call_of args [v] ->
  sq_value_to_text v = t ->
  0 <= length t <= Z.of_nat (List.length (ptr t)) ->
  is_open (file (scroll m)) = true ->
  let bytes := firstn (Z.to_nat (length t)) (ptr t) in
  let f := file (scroll m) in
  let at_ := if append f then List.length (contents f) else position f in
  let m' := snd (write_func args m) in
  let f' := file (scroll m') in
  Z.of_nat (List.length bytes) = length t /\
  m' = snd (fwrite bytes m) /\
  log m' = log m ++ [Cfwrite bytes] /\
  exists n, fst (fwrite bytes m) = Return n /\ n <= length t /\
    (script m = [] -> n = length t) /\
    (n < length t ->
     fst (write_func args m)
     = Throw {| kind := IOError; fmt := "cannot write %zu bytes to '%s'";
                fargs := [ArgNum (length t); ArgStr (filename (scroll m))] |}) /\
    (n = length t ->
     fst (write_func args m) = Return SQ_NI /\
     contents f' = contents (overwrite f bytes) /\
     position f' = position (overwrite f bytes) /\
     firstn (List.length bytes) (skipn at_ (contents f')) = bytes /\
     (bytes <> [] -> position f' = (at_ + List.length bytes)%nat)).
Proof.
  intros Hcall Ht Hwf Hopen bytes f at_ m' f'.
  assert (Hlen : Z.of_nat (List.length bytes) = length t)
    by (apply firstn_length_exact; exact Hwf).
  destruct (write_func_outcome args v m Hcall) as (n & Hn & Hw).
  rewrite Ht in Hn, Hw. fold bytes in Hn, Hw.
  subst f' m'. rewrite Hw. cbn [fst snd].
  split; [exact Hlen|]. split; [reflexivity|]. split; [apply fwrite_log|].
  exists n. split; [exact Hn|].
  pose proof (fwrite_at_most _ _ _ Hn) as Hmost.
  split; [lia|]. split; [|split].
  - intros Hscript. rewrite (fwrite_complete bytes m Hopen Hscript) in Hn.
    injection Hn as <-. exact Hlen.
  - intros Hlt. apply Z.ltb_lt in Hlt. rewrite Hlt. reflexivity.
  - intros Heq. subst n. rewrite Z.ltb_irrefl. split; [reflexivity|].
    rewrite <- Hlen in Hn.
    destruct (fwrite_in_full bytes m Hopen Hn) as [Hc Hp].
    destruct (overwrite_at f bytes) as [Hat Hpos].
    rewrite Hc, Hp. auto.
Qed.


(** *** seek and tell *)

Lemma to_long_small (p : Z) : 0 <= p < 2 ^ 63 -> to_long (to_size_t p) = p.
Proof.
  intros H. unfold to_long, to_size_t.
  rewrite (Z.mod_small p) by lia. rewrite Z.mod_small by lia. lia.
Qed.

(** What [ftell] reports is -1 or the stream's position, which then fits a
    [long]; the stream stays where it is. *)
Lemma ftell_value (m : machine) (p : Z) :
  fst (ftell m) = Return p ->
  file (scroll (snd (ftell m))) = file (scroll m) /\
  (p = -1 \/ (p = Z.of_nat (position (file (scroll m))) /\ 0 <= p < 2 ^ 63)).
Proof.
  unfold ftell, on_closed, next_event.
  cbn [log_call scroll file script].
  destruct (is_open (file (scroll m))); cbn [negb].
  - destruct (script m) as [|[|k|k code] rest];
      try (destruct (Z.leb_spec (2 ^ 63) (Z.of_nat (position (file (scroll m))))));
      cbn [fst snd set_errno set_script scroll file];
      intros Hret; injection Hret as <-; (split; [reflexivity|]);
      first [left; reflexivity | right; split; [reflexivity | lia]].
  - cbn [fst snd set_errno scroll file]. intros Hret; injection Hret as <-. auto.
Qed.

Lemma seek_func_run (args : sq_args) (o w : sq_value) (m : machine) :
  call_of args [o; w] ->
  seek_func args m
  = bind (sq_scroll_seek (to_long (sq_value_to_numeral o))
            (to_int (sq_value_to_numeral w)))
      (fun _ => bind sq_scroll_tell (fun p => ret (Numeral (to_long p)))) m.
Proof.
  intros [Hargs Hkw]. unfold seek_func. run. rewrite Hargs, Hkw. reflexivity.
Qed.

Lemma sq_scroll_seek_outcome (offset whence : Z) (m : machine) :
  (fst (fseek offset whence m) = Return 0 /\
   sq_scroll_seek offset whence m = (Return tt, snd (fseek offset whence m))) \/
  (fst (fseek offset whence m) = Return (-1) /\
   sq_scroll_seek offset whence m
   = (Throw {| kind := IOError; fmt := "cannot seek '%d' for '%s'";
               fargs := [ArgNum whence; ArgStr (filename (scroll m))] |},
      snd (fseek offset whence m))).
Proof.
  pose proof (fseek_names offset whence m) as Hname.
  unfold sq_scroll_seek. run.
  destruct (fseek_returns offset whence m) as [H|H];
    destruct (fseek offset whence m) as [r m']; simpl in *; subst r; simpl; auto.
  rewrite Hname. auto.
Qed.

Lemma sq_scroll_tell_outcome (m : machine) :
  exists p, fst (ftell m) = Return p /\
    sq_scroll_tell m
    = (if p <? 0
       then Throw {| kind := IOError; fmt := "cannot get offset for '%s'";
                     fargs := [ArgStr (filename (scroll m))] |}
       else Return (to_size_t p),
       snd (ftell m)).
Proof.
  destruct (ftell_returns m) as [p Hp]. exists p. split; [exact Hp|].
  pose proof (ftell_names m) as Hname.
  unfold sq_scroll_tell. run.
  destruct (ftell m) as [r m']. simpl in *. subst r.
  destruct (p <? 0); [rewrite Hname|]; reflexivity.
Qed.

(** C8.  [seek] calls [fseek] with the offset as a [long] and the whence as
    an [int].  When [fseek] fails, the call raises the IO error "cannot seek
    '%d' for '%s'" with the whence and the file name, and [ftell] is not
    called.  Otherwise [ftell] is the very next stdio call: when it fails,
    the call raises the IO error "cannot get offset for '%s'"; when it
    succeeds, the call returns as a numeral what [ftell] reported, which is
    the position the stream has after the call. *)
Theorem seek_func_returns_position (args : sq_args) (o w : sq_value) (m : machine) :
  call_of args [o; w] ->
  let offset := to_long (sq_value_to_numeral o) in
  let whence := to_int (sq_value_to_numeral w) in
  let m1 := snd (fseek offset whence m) in
  let m' := snd (seek_func args m) in
  (fst (fseek offset whence m) <> Return 0 ->
   fst (seek_func args m)
   = Throw {| kind := IOError; fmt := "cannot seek '%d' for '%s'";
              fargs := [ArgNum whence; ArgStr (filename (scroll m))] |} /\
   log m' = log m ++ [Cfseek offset whence]) /\
  (fst (fseek offset whence m) = Return 0 ->
   log m' = log m ++ [Cfseek offset whence; Cftell] /\
   forall p, fst (ftell m1) = Return p ->
     (p < 0 ->
      fst (seek_func args m)
      = Throw {| kind := IOError; fmt := "cannot get offset for '%s'";
                 fargs := [ArgStr (filename (scroll m))] |}) /\
     (0 <= p ->
      fst (seek_func args m) = Return (Numeral p) /\
      p = Z.of_nat (position (file (scroll m'))))).
Proof.
  intros Hcall offset whence m1 m'.
  subst m'. rewrite (seek_func_run args o w m Hcall). fold offset whence.
  destruct (sq_scroll_seek_outcome offset whence m) as [[Hr Hs]|[Hr Hs]]; fold m1 in Hs.
  - rewrite (bind_return _ _ _ _ _ Hs).
    split; [intros H; contradiction|]. intros _.
    destruct (sq_scroll_tell_outcome m1) as (p & Hp & Ht).
    pose proof (ftell_value m1 p Hp) as [Hfile Hval].
    pose proof (fseek_names offset whence m) as Hname. fold m1 in Hname.
    assert (Hlog : log (snd (ftell m1)) = log m ++ [Cfseek offset whence; Cftell]).
    { rewrite ftell_log. unfold m1. rewrite fseek_log, <- List.app_assoc. reflexivity. }
    destruct (Z.ltb_spec p 0) as [Hneg|Hpos].
    + rewrite (bind_throw _ _ _ _ _ Ht). simpl. split; [exact Hlog|].
      intros p' Hp'. rewrite Hp in Hp'. injection Hp' as <-.
      split; [intros _; rewrite Hname; reflexivity | lia].
    + rewrite (bind_return _ _ _ _ _ Ht). unfold ret. simpl. split; [exact Hlog|].
      intros p' Hp'. rewrite Hp in Hp'. injection Hp' as <-.
      split; [lia|]. intros _.
      destruct Hval as [->|[Hval Hrange]]; [lia|].
      rewrite to_long_small by exact Hrange. rewrite Hfile. auto.
  - rewrite (bind_throw _ _ _ _ _ Hs). simpl.
    split; [|intros H; rewrite Hr in H; discriminate].
    intros _. split; [reflexivity|]. unfold m1. apply fseek_log.
Qed.

(** *** The read loop *)

Lemma forallb_skipn {A} (p : A -> bool) (j : nat) (l : list A) :
  forallb p l = true -> forallb p (skipn j l) = true.
Proof.
  revert l. induction j as [|j IH]; intros [|a l]; simpl; auto.
  intros H. apply andb_prop in H. apply IH, H.
Qed.

Lemma reads_calm k m m' : reads k m m' -> calm m -> calm m'.
Proof.
  intros (_ & _ & Ho & _ & _ & [j Hj] & _) [Hopen Hs]. split.
  - rewrite Ho. exact Hopen.
  - rewrite Hj. apply forallb_skipn, Hs.
Qed.

Lemma remaining_after k (f f' : FILE) :
  contents f' = contents f -> position f' = (position f + k)%nat ->
  remaining f' = skipn k (remaining f).
Proof.
  intros Hc Hp. unfold remaining. rewrite Hc, Hp, List.skipn_skipn.
  f_equal. lia.
Qed.

Lemma reads_refl m : reads 0 m m.
Proof.
  unfold reads. rewrite Nat.add_0_r. repeat split; auto; try lia.
  - exists 0%nat. reflexivity.
  - exists []. simpl. rewrite List.app_nil_r. reflexivity.
Qed.

Lemma reads_trans a b m m1 m2 :
  reads a m m1 -> reads b m1 m2 -> reads (a + b) m m2.
Proof.
  intros Ha Hb. pose proof (reads_calm _ _ _ Ha) as Hcalm.
  destruct Ha as (Hc1 & Hp1 & Ho1 & Hn1 & Hk1 & [j1 Hj1] & [l1 Hl1] & He1).
  destruct Hb as (Hc2 & Hp2 & Ho2 & Hn2 & Hk2 & [j2 Hj2] & [l2 Hl2] & He2).
  rewrite (remaining_after a _ _ Hc1 Hp1), List.length_skipn in Hk2.
  unfold reads. repeat split; try congruence; try lia.
  - exists (j1 + j2)%nat. rewrite Hj2, Hj1, List.skipn_skipn. f_equal. lia.
  - exists (l1 ++ l2). rewrite Hl2, Hl1, List.map_app, List.app_assoc. reflexivity.
  - intros H. rewrite He2, He1; auto.
Qed.

(** One [fread]: the bytes obtained are the next bytes of the stream, no
    more than asked for. *)
Lemma fread_reads (count : Z) (m : machine) :
  exists got,
    fread count m = (Return got, snd (fread count m)) /\
    reads (List.length got) m (snd (fread count m)) /\
    got = firstn (List.length got) (remaining (file (scroll m))) /\
    (List.length got <= Z.to_nat count)%nat /\
    (calm m -> script m = [] ->
     got = firstn (Z.to_nat count) (remaining (file (scroll m)))).
Proof.
  unfold fread, on_closed, next_event, reads, calm.
  cbn [log_call scroll file script].
  destruct (is_open (file (scroll m))) eqn:Hopen; cbn [negb].
  - assert (Hfirst : forall n, firstn n (remaining (file (scroll m)))
                     = firstn (List.length (firstn n (remaining (file (scroll m)))))
                         (remaining (file (scroll m)))).
    { intros n. rewrite List.length_firstn.
      destruct (Nat.min_spec n (List.length (remaining (file (scroll m)))))
        as [[Hmin ->]|[Hmin ->]]; [reflexivity|].
      rewrite !List.firstn_all2 by lia. reflexivity. }
    destruct (script m) as [|[|k|k code] rest] eqn:Hscript; simpl;
      eexists; (split; [reflexivity|]);
      rewrite ?Hopen, ?Hscript; unfold remaining in *; simpl;
      repeat match goal with
             | |- _ /\ _ => split
             | |- exists j : nat, _ = skipn j _ =>
                 first [exists 0%nat; reflexivity | exists 1%nat; reflexivity]
             | |- exists counts : list Z, _ => exists [count]; reflexivity
             | |- _ -> _ =>
                 let H := fresh in intro H; rewrite ?Hopen, ?Hscript in H; simpl in H
             | H : _ :: _ = [] |- _ => discriminate H
             | H : _ /\ false = true |- _ => destruct H as [_ H]
             | H : false = true |- _ => discriminate H
             | |- _ = firstn (List.length _) _ => apply Hfirst
             | |- (_ <= _)%nat => rewrite ?List.length_firstn, ?List.length_skipn; lia
             | |- _ => reflexivity
             end.
  - simpl. exists []. split; [reflexivity|]. rewrite Nat.add_0_r, Hopen.
    repeat split; simpl; try lia.
    + exists 0%nat. reflexivity.
    + exists [count]. reflexivity.
Qed.

Lemma store_nil (buf : list byte) (pos : Z) : store buf pos [] = buf.
Proof. unfold store. simpl. rewrite Nat.add_0_r. apply List.firstn_skipn. Qed.

Lemma store_store (buf : list byte) (pos : Z) (a b : list byte) :
  0 <= pos -> (Z.to_nat pos <= List.length buf)%nat ->
  store (store buf pos a) (pos + Z.of_nat (List.length a)) b = store buf pos (a ++ b).
Proof.
  intros Hpos Hcap. unfold store.
  replace (Z.to_nat (pos + Z.of_nat (List.length a)))
    with (Z.to_nat pos + List.length a)%nat by lia.
  set (p := Z.to_nat pos) in *.
  assert (Hp : List.length (firstn p buf) = p) by (rewrite List.length_firstn; lia).
  rewrite List.length_app.
  rewrite (List.app_assoc (firstn p buf) a).
  assert (Hpa : List.length (firstn p buf ++ a) = (p + List.length a)%nat)
    by (rewrite List.length_app; lia).
  rewrite <- Hpa at 1. rewrite List.firstn_app, List.firstn_all, Nat.sub_diag. simpl.
  rewrite List.app_nil_r.
  replace (p + List.length a + List.length b)%nat
    with (List.length (firstn p buf ++ a) + List.length b)%nat by lia.
  rewrite List.skipn_app.
  rewrite (List.skipn_all2 (firstn p buf ++ a)) by lia.
  replace (List.length (firstn p buf ++ a) + List.length b
           - List.length (firstn p buf ++ a))%nat with (List.length b) by lia.
  rewrite List.skipn_skipn. simpl.
  replace (List.length b + (p + List.length a))%nat
    with (p + (List.length a + List.length b))%nat by lia.
  rewrite <- !List.app_assoc. reflexivity.
Qed.

Lemma store_grows (buf : list byte) (pos : Z) (a : list byte) :
  (Z.to_nat pos <= List.length buf)%nat ->
  (Z.to_nat pos + List.length a <= List.length (store buf pos a))%nat.
Proof.
  intros H. unfold store.
  rewrite !List.length_app, List.length_firstn, List.length_skipn. lia.
Qed.

Lemma firstn_then_more {A} (a b : nat) (l : list A) :
  firstn a l ++ firstn b (skipn a l) = firstn (a + b) l.
Proof.
  revert l. induction a as [|a IH]; intros [|x l]; simpl; auto.
  - rewrite List.firstn_nil. reflexivity.
  - f_equal. apply IH.
Qed.

Lemma to_size_t_small (x : Z) : 0 <= x < 2 ^ 64 -> to_size_t x = x.
Proof. intros H. apply Z.mod_small, H. Qed.

Lemma to_unsigned_small (x : Z) : 0 <= x < 2 ^ 32 -> to_unsigned x = x.
Proof. intros H. apply Z.mod_small, H. Qed.

(** The loop of [sq_scroll_read], for a request that fits an [unsigned]:
    with fuel for one more round than bytes are missing it returns; [k]
    bytes were taken from the stream, no more than were missing, and they
    are in the buffer from [position] on; and the loop's last act was an
    [fread] for the bytes still missing that obtained none. *)
Lemma read_loop_spec (fuel : nat) :
  forall (N pos : Z) (buf : list byte) (m : machine),
    0 <= pos <= N -> N < 2 ^ 32 ->
    (Z.to_nat (N - pos) < fuel)%nat ->
    (Z.to_nat pos <= List.length buf)%nat ->
    exists (k : nat) (m_last m' : machine),
      read_loop fuel N pos buf m
      = (Return (pos + Z.of_nat k,
                 store buf pos (firstn k (remaining (file (scroll m))))), m') /\
      pos + Z.of_nat k <= N /\
      reads k m m_last /\
      fread (N - (pos + Z.of_nat k)) m_last = (Return [], m') /\
      reads k m m' /\
      exists counts, log m' = log m ++ Cfread (N - pos) :: map Cfread counts.
Proof.
  clear.
  induction fuel as [|fuel IH]; intros N pos buf m Hpos HN Hfuel Hcap; [lia|].
  cbn [read_loop].
  rewrite to_size_t_small by lia.
  destruct (fread_reads (N - pos) m) as (got & Hf & Hreads & Hgot & Hle & _).
  pose proof (fread_log (N - pos) m) as Hlog.
  rewrite (bind_return _ _ _ _ _ Hf).
  rewrite to_unsigned_small by lia.
  destruct (Z.eqb_spec (Z.of_nat (List.length got)) 0) as [Hzero|Hsome]; cbn [negb].
  - assert (got = []) by (destruct got; [reflexivity | simpl in Hzero; lia]). subst got.
    exists 0%nat, m, (snd (fread (N - pos) m)).
    cbn [List.length firstn Z.of_nat] in Hreads, Hf |- *.
    rewrite Z.add_0_r, store_nil. unfold ret.
    refine (conj eq_refl (conj _ (conj (reads_refl m) (conj Hf (conj Hreads _))))); [lia|].
    exists []. exact Hlog.
  - set (m1 := snd (fread (N - pos) m)) in Hreads, Hf, Hlog |- *.
    rewrite to_size_t_small by lia.
    destruct (IH N (pos + Z.of_nat (List.length got)) (store buf pos got) m1)
      as (k & m_last & m' & Hloop & Hk & Hr1 & Hlast & Hr2 & [counts Hcounts]);
      [lia | lia | lia | pose proof (store_grows buf pos got Hcap); lia |].
    exists (List.length got + k)%nat, m_last, m'.
    rewrite Hloop.
    destruct Hreads as (Hc & Hp & Hrest).
    rewrite (remaining_after (List.length got) _ _ Hc Hp).
    rewrite store_store by lia.
    rewrite <- (firstn_then_more (List.length got) k), <- Hgot.
    replace (pos + Z.of_nat (List.length got + k))
      with (pos + Z.of_nat (List.length got) + Z.of_nat k) by lia.
    assert (Hreads : reads (List.length got) m m1) by (unfold reads; tauto).
    refine (conj eq_refl (conj _ (conj _ (conj Hlast (conj _ _)))));
      [lia | eapply reads_trans; eauto | eapply reads_trans; eauto |].
    exists ((N - (pos + Z.of_nat (List.length got))) :: counts).
    rewrite Hcounts, Hlog, <- List.app_assoc. reflexivity.
Qed.

(** *** read with a numeral *)

(** [sq_scroll_read] for a request that fits an [unsigned].  The loop takes
    some [k <= N] bytes from the stream and ends on an [fread] that obtains
    nothing.  If the stream's error indicator is then set the call raises;
    otherwise it returns the text [sq_text_allocate] made, its buffer
    holding the [k] bytes followed by a zero byte. *)
Lemma sq_scroll_read_spec (N : Z) (m : machine) :
  0 <= N < 2 ^ 32 ->
  exists (k : nat) (m_last m_loop : machine),
    Z.of_nat k <= N /\
    reads k m m_last /\
    fread (N - Z.of_nat k) m_last = (Return [], m_loop) /\
    reads k m m_loop /\
    (exists counts, log m_loop = log m ++ Cfread N :: map Cfread counts) /\
    sq_scroll_read N m
    = (if err_ind (file (scroll m_loop))
       then Throw {| kind := IOError; fmt := "unable to read %zu bytes from '%s'";
                     fargs := [ArgNum N; ArgStr (filename (scroll m))] |}
       else Return (with_ptr (sq_text_allocate N)
                      (store (store (ptr (sq_text_allocate N)) 0
                                (firstn k (remaining (file (scroll m)))))
                         (Z.of_nat k) [x00])),
       log_call Cferror m_loop).
Proof.
  intros HN.
  destruct (read_loop_spec (S (Z.to_nat N)) N 0 (ptr (sq_text_allocate N)) m)
    as (k & m_last & m_loop & Hloop & Hk & Hr1 & Hlast & Hr2 & Hlog); try lia.
  exists k, m_last, m_loop. rewrite Z.add_0_l in Hloop, Hk, Hlast.
  rewrite Z.sub_0_r in Hlog.
  refine (conj Hk (conj Hr1 (conj Hlast (conj Hr2 (conj Hlog _))))).
  unfold sq_scroll_read. rewrite (bind_return _ _ _ _ _ Hloop).
  unfold bind, ferror, get_scroll, sq_throw_io, ret.
  cbn [log_call scroll file fst snd].
  destruct Hr2 as (_ & _ & _ & Hname & _).
  destruct (err_ind (file (scroll m_loop))); cbn [log_call scroll filename];
    [rewrite Hname|]; reflexivity.
Qed.

(** On a calm machine whose script is used up, the loop takes all the
    stream has left, up to the request, and an error indicator that was
    clear stays clear: running into the end of the stream is no error. *)
Lemma sq_scroll_read_to_the_end (N : Z) (m : machine) :
  0 <= N < 2 ^ 32 ->
  is_open (file (scroll m)) = true -> script m = [] ->
  err_ind (file (scroll m)) = false ->
  let k := Nat.min (Z.to_nat N) (List.length (remaining (file (scroll m)))) in
  exists m_loop,
    sq_scroll_read N m
    = (Return (with_ptr (sq_text_allocate N)
                 (store (store (ptr (sq_text_allocate N)) 0
                           (firstn k (remaining (file (scroll m)))))
                    (Z.of_nat k) [x00])), log_call Cferror m_loop) /\
    reads k m m_loop /\ script m_loop = [] /\
    err_ind (file (scroll m_loop)) = false.
Proof.
  intros HN Hopen Hscript Herr k.
  assert (Hcalm : calm m) by (split; [exact Hopen | rewrite Hscript; reflexivity]).
  destruct (sq_scroll_read_spec N m HN)
    as (k' & m_last & m_loop & Hk & Hr1 & Hlast & Hr2 & _ & Hr).
  assert (Hk' : k' = k).
  { pose proof (reads_calm _ _ _ Hr1 Hcalm) as Hcalm1.
    destruct Hr1 as (Hc & Hp & _ & _ & Hle & [j Hj] & _).
    rewrite Hscript, List.skipn_nil in Hj.
    destruct (fread_reads (N - Z.of_nat k') m_last) as (got & Hf & _ & _ & _ & Hall).
    rewrite Hlast in Hf. injection Hf as Hgot. subst got.
    specialize (Hall Hcalm1 Hj).
    rewrite (remaining_after k' _ _ Hc Hp) in Hall.
    apply (f_equal (@List.length byte)) in Hall.
    rewrite List.length_firstn, List.length_skipn in Hall. simpl in Hall.
    subst k. lia. }
  subst k'. exists m_loop.
  pose proof Hr2 as (_ & _ & _ & _ & _ & [j Hj] & _ & He).
  rewrite Hr, (He Hcalm), Herr.
  rewrite Hscript, List.skipn_nil in Hj. auto.
Qed.

Lemma read_func_numeral (args : sq_args) (N : Z) (m : machine) :
  call_of args [Numeral N] -> 0 <= N < 2 ^ 32 ->
  read_func args m = bind (sq_scroll_read N) (fun t => ret (Text t)) m.
Proof.
  intros [Hargs Hkw] HN. unfold read_func, pargc, parg.
  rewrite Hargs, Hkw. cbn [nth sq_value_as_numeral sq_value_genus_tag].
  rewrite to_size_t_small by lia.
  destruct (Z.ltb_spec N 0); [lia|]. reflexivity.
Qed.

(** *** read with a text *)

Lemma read_func_newline (args : sq_args) (t : sq_text) (m : machine) :
  call_of args [Text t] -> strcmp_eq (ptr t) [x0a; x00] = true ->
  read_func args m
  = bind fgetln
      (fun result =>
         match result with
         | None => bind get_errno (fun e => sq_throw (strerror e) [])
         | Some line => ret (Text (sq_text_new (strndup line (List.length line))))
         end) m.
Proof.
  intros [Hargs Hkw] Hnl. unfold read_func, pargc, parg.
  rewrite Hargs, Hkw. cbn [nth sq_value_as_text sq_value_genus_tag].
  rewrite Hnl. reflexivity.
Qed.

(** [fgetln] on an open stream with nothing left, or failed by the
    environment, answers [NULL]. *)
Lemma fgetln_nothing (m : machine) :
  is_open (file (scroll m)) = true ->
  remaining (file (scroll m)) = [] ->
  fst (fgetln m) = Return None.
Proof.
  intros Hopen Hrem. unfold fgetln, next_event. cbn [log_call scroll file script].
  rewrite Hopen, Hrem. destruct (script m) as [|[|k|k code] rest]; reflexivity.
Qed.

(** [fgetln] on a calm stream with something left hands out the bytes up to
    and including the first newline, or all that is left when there is no
    newline, and moves the position behind them. *)
Lemma fgetln_line (m : machine) :
  calm m -> remaining (file (scroll m)) <> [] ->
  let line := line_of (remaining (file (scroll m))) in
  fst (fgetln m) = Return (Some line) /\
  position (file (scroll (snd (fgetln m))))
  = (position (file (scroll m)) + List.length line)%nat /\
  contents (file (scroll (snd (fgetln m)))) = contents (file (scroll m)).
Proof.
  intros [Hopen Hcalm] Hrem line. subst line.
  unfold fgetln, next_event. cbn [log_call scroll file script].
  rewrite Hopen. cbn [negb].
  destruct (remaining (file (scroll m))) as [|b bs] eqn:E; [contradiction|].
  destruct (script m) as [|[|k|k code] rest]; simpl in Hcalm; try discriminate;
    cbn [set_script set_file set_scroll scroll file fst snd advance position contents];
    auto.
Qed.

(** A line is a prefix of what is left; it ends with the first newline, and
    holds no other. *)
Lemma line_of_prefix (bs : list byte) :
  exists rest, bs = line_of bs ++ rest /\
    ((exists body, line_of bs = body ++ [x0a] /\ ~ In x0a body) \/
     (line_of bs = bs /\ ~ In x0a bs)).
Proof.
  induction bs as [|b bs (rest & Hrest & IH)].
  - exists []. split; [reflexivity|]. right. simpl. auto.
  - simpl. destruct (Byte.eqb b x0a) eqn:E.
    + apply Byte.byte_dec_bl in E. subst b. exists bs. split; [reflexivity|].
      left. exists []. simpl. auto.
    + assert (Hb : b <> x0a).
      { intros ->. discriminate E. }
      exists rest. split; [simpl; f_equal; exact Hrest|].
      destruct IH as [(body & Hbody & Hno)|[Hall Hno]].
      * left. exists (b :: body). rewrite Hbody. split; [reflexivity|].
        simpl. intros [H|H]; [congruence | contradiction].
      * right. rewrite Hall. split; [reflexivity|].
        simpl. intros [H|H]; [congruence | contradiction].
Qed.

(** [cstr] keeps a buffer that holds no zero byte, and cuts any other at
    its first zero byte. *)
Lemma cstr_no_zero (bs : list byte) : ~ In x00 bs -> cstr bs = bs.
Proof.
  induction bs as [|b bs IH]; simpl; intros H; [reflexivity|].
  destruct (Byte.eqb b x00) eqn:E.
  - apply Byte.byte_dec_bl in E. subst b. exfalso. apply H. auto.
  - f_equal. apply IH. intros Hin. apply H. auto.
Qed.

Lemma cstr_cut (a b : list byte) : ~ In x00 a -> cstr (a ++ x00 :: b) = a.
Proof.
  induction a as [|c a IH]; simpl; intros H; [reflexivity|].
  destruct (Byte.eqb c x00) eqn:E.
  - apply Byte.byte_dec_bl in E. subst c. exfalso. apply H. auto.
  - f_equal. apply IH. intros Hin. apply H. auto.
Qed.

(** C1, at a stream that ends early.  Whatever [sq_text_allocate] does,
    reading 5 bytes from a stream that holds "abc" and from one that holds
    "abcde" both succeed, the first having taken 3 bytes and the second 5;
    the first text's buffer is "abc" followed by a zero byte; and both
    texts carry the same [length], the one [sq_text_allocate 5] gave them.
    So the length cannot be the number of bytes transferred in both. *)
Theorem read_length_ignores_transfer :
  let short := Host.machine_on (list_byte_of_string "abc") [] in
  let whole := Host.machine_on (list_byte_of_string "abcde") [] in
  let args := Host.call [Host.receiver; Numeral 5] in
  exists (t1 t2 : sq_text) (m1 m2 : machine),
    read_func args short = (Return (Text t1), m1) /\
    read_func args whole = (Return (Text t2), m2) /\
    position (file (scroll m1)) = 3%nat /\
    position (file (scroll m2)) = 5%nat /\
    firstn 4 (ptr t1) = list_byte_of_string "abc" ++ [x00] /\
    length t1 = length (sq_text_allocate 5) /\
    length t2 = length (sq_text_allocate 5) /\
    ~ (length t1 = 3 /\ length t2 = 5).
Proof.
  intros short whole args.
  do 4 eexists.
  split; [vm_compute; reflexivity|].
  split; [vm_compute; reflexivity|].
  repeat split; try reflexivity.
  simpl. intros [H3 H5]. rewrite H3 in H5. discriminate H5.
Qed.

(** [read] with the newline text on a calm stream that has something left
    returns the text [sq_text_new] makes of [strndup]'s copy of the next
    line, and the position moves behind the line. *)
Lemma read_newline_returns_line (args : sq_args) (t : sq_text) (m : machine) :
  call_of args [Text t] -> strcmp_eq (ptr t) [x0a; x00] = true ->
  calm m -> remaining (file (scroll m)) <> [] ->
  let line := line_of (remaining (file (scroll m))) in
  fst (read_func args m) = Return (Text (sq_text_new (strndup line (List.length line)))) /\
  position (file (scroll (snd (read_func args m))))
  = (position (file (scroll m)) + List.length line)%nat /\
  log (snd (read_func args m)) = log m ++ [Cfgetln].
Proof.
  intros Hcall Hnl Hcalm Hrem line.
  rewrite (read_func_newline args t m Hcall Hnl).
  destruct (fgetln_line m Hcalm Hrem) as (Hr & Hp & _). fold line in Hr, Hp.
  pose proof (fgetln_log m) as Hlog.
  unfold bind. destruct (fgetln m) as [r m1]. simpl in *. subst r.
  unfold ret. simpl. auto.
Qed.

(** A line that holds no zero byte is copied whole. *)
Lemma strndup_whole (line : list byte) :
  ~ In x00 line -> strndup line (List.length line) = line.
Proof.
  intros H. unfold strndup. rewrite List.firstn_all. apply cstr_no_zero, H.
Qed.

(** A line that holds a zero byte is copied up to that byte only. *)
Lemma strndup_cuts (a b : list byte) :
  ~ In x00 a -> strndup (a ++ x00 :: b) (List.length (a ++ x00 :: b)) = a.
Proof.
  intros H. unfold strndup. rewrite List.firstn_all. apply cstr_cut, H.
Qed.

(** C5, where the stream has nothing left.  [read] with the newline text
    calls [fgetln] once and, on its [NULL], raises through [sq_throw]: the
    error is the plain one, not the IO error, its message [strerror] of the
    [errno] the call leaves. *)
Theorem read_newline_raises_plain_error (args : sq_args) (t : sq_text) (m : machine) :
  call_of args [Text t] -> strcmp_eq (ptr t) [x0a; x00] = true ->
  is_open (file (scroll m)) = true ->
  remaining (file (scroll m)) = [] ->
  fst (read_func args m)
  = Throw {| kind := PlainError;
             fmt := strerror (errno (snd (read_func args m)));
             fargs := [] |} /\
  log (snd (read_func args m)) = log m ++ [Cfgetln].
Proof.
  intros Hcall Hnl Hopen Hrem.
  rewrite (read_func_newline args t m Hcall Hnl).
  pose proof (fgetln_nothing m Hopen Hrem) as Hr.
  pose proof (fgetln_log m) as Hlog.
  unfold bind. destruct (fgetln m) as [r m1]. simpl in *. subst r.
  unfold get_errno, sq_throw. simpl. auto.
Qed.

(** *** The record of stdio calls only grows *)

Lemma grows_ret {A} (a : A) : grows (ret a).
Proof. intros m. exists []. simpl. rewrite List.app_nil_r. reflexivity. Qed.

Lemma grows_bind {A B} (c : M A) (k : A -> M B) :
  grows c -> (forall a, grows (k a)) -> grows (bind c k).
Proof.
  intros Hc Hk m. unfold bind. destruct (Hc m) as [r1 H1].
  destruct (c m) as [[a|e|msg|w|] m']; simpl in *; try (exists r1; exact H1).
  destruct (Hk a m') as [r2 H2]. exists (r1 ++ r2).
  rewrite H2, H1, List.app_assoc. reflexivity.
Qed.

Lemma starts_bind {A B} (call : os_call) (c : M A) (k : A -> M B) :
  starts_with call c -> (forall a, grows (k a)) -> starts_with call (bind c k).
Proof.
  intros Hc Hk m. unfold bind. destruct (Hc m) as [r1 H1].
  destruct (c m) as [[a|e|msg|w|] m']; simpl in *; try (exists r1; exact H1).
  destruct (Hk a m') as [r2 H2]. exists (r1 ++ r2).
  rewrite H2, H1, <- List.app_assoc. reflexivity.
Qed.

Lemma grows_still {A} (comp : M A) : (forall m, snd (comp m) = m) -> grows comp.
Proof.
  intros H m. exists []. rewrite H, List.app_nil_r. reflexivity.
Qed.

Lemma grows_one {A} (call : os_call) (comp : M A) : starts_with call comp -> grows comp.
Proof. intros H m. destruct (H m) as [rest Hr]. exists (call :: rest). exact Hr. Qed.

Lemma starts_fread count : starts_with (Cfread count) (fread count).
Proof. intros m. exists []. apply fread_log. Qed.

Lemma grows_ferror : grows ferror.
Proof. intros m. exists [Cferror]. reflexivity. Qed.

Lemma grows_read_loop (fuel : nat) :
  forall N pos buf, grows (read_loop fuel N pos buf).
Proof.
  clear.
  induction fuel as [|fuel IH]; intros N pos buf; cbn [read_loop].
  - apply grows_still. reflexivity.
  - apply grows_bind; [apply (grows_one _ _ (starts_fread _))|]. intros got.
    destruct (negb _); [apply IH | apply grows_ret].
Qed.

(** [sq_scroll_read] begins with an [fread] for the whole request. *)
Lemma starts_sq_scroll_read (L : Z) :
  starts_with (Cfread (to_size_t (L - 0))) (sq_scroll_read L).
Proof.
  unfold sq_scroll_read. apply starts_bind.
  - cbn [read_loop]. apply starts_bind; [apply starts_fread|]. intros got.
    destruct (negb _); [apply grows_read_loop | apply grows_ret].
  - intros [position buf]. apply grows_bind; [apply grows_ferror|]. intros e.
    destruct e.
    + apply grows_bind; [apply grows_still; reflexivity|].
      intros sc. apply grows_still. reflexivity.
    + apply grows_ret.
Qed.

(** *** No operation looks at the handle's state before calling stdio *)

Lemma seek_func_log (args : sq_args) (o w : sq_value) (m : machine) :
  call_of args [o; w] ->
  exists rest,
    log (snd (seek_func args m))
    = log m ++ Cfseek (to_long (sq_value_to_numeral o)) (to_int (sq_value_to_numeral w))
               :: rest.
Proof.
  intros Hcall. rewrite (seek_func_run args o w m Hcall).
  set (offset := to_long (sq_value_to_numeral o)).
  set (whence := to_int (sq_value_to_numeral w)).
  pose proof (fseek_log offset whence m) as Hlog.
  destruct (sq_scroll_seek_outcome offset whence m) as [[_ Hs]|[_ Hs]].
  - rewrite (bind_return _ _ _ _ _ Hs).
    destruct (sq_scroll_tell_outcome (snd (fseek offset whence m))) as (p & _ & Ht).
    exists [Cftell].
    unfold bind, ret. rewrite Ht.
    destruct (p <? 0); simpl; rewrite ftell_log, Hlog, <- List.app_assoc; reflexivity.
  - rewrite (bind_throw _ _ _ _ _ Hs). exists []. exact Hlog.
Qed.

Lemma read_numeral_log (args : sq_args) (N : Z) (m : machine) :
  call_of args [Numeral N] -> 0 <= N ->
  exists rest, log (snd (read_func args m)) = log m ++ Cfread (to_size_t N) :: rest.
Proof.
  intros [Hargs Hkw] HN.
  assert (Hrun : read_func args m
                 = bind (sq_scroll_read (to_size_t N)) (fun t => ret (Text t)) m).
  { unfold read_func, pargc, parg.
    rewrite Hargs, Hkw. cbn [nth sq_value_as_numeral sq_value_genus_tag].
    destruct (Z.ltb_spec N 0); [lia|]. reflexivity. }
  rewrite Hrun.
  assert (Hsame : to_size_t (to_size_t N - 0) = to_size_t N).
  { rewrite Z.sub_0_r. unfold to_size_t. apply Z.mod_mod. lia. }
  destruct (starts_bind _ _ (fun t => ret (Text t))
              (starts_sq_scroll_read (to_size_t N)) (fun t => grows_ret _) m)
    as [rest Hrest].
  rewrite Hsame in Hrest. exists rest. exact Hrest.
Qed.

Lemma read_newline_log (args : sq_args) (t : sq_text) (m : machine) :
  call_of args [Text t] -> strcmp_eq (ptr t) [x0a; x00] = true ->
  log (snd (read_func args m)) = log m ++ [Cfgetln].
Proof.
  intros Hcall Hnl. rewrite (read_func_newline args t m Hcall Hnl).
  pose proof (fgetln_log m) as Hlog.
  destruct (fgetln_returns m) as [r Hr].
  unfold bind. destruct (fgetln m) as [r' m1]. simpl in *. subst r'.
  destruct r; exact Hlog.
Qed.

(** C2, as the code has it.  The scroll has no open-or-closed state of its
    own, and no operation checks anything before it calls stdio.
    [sq_scroll_close] and [sq_scroll_deallocate] each call [fclose] once on
    every handle, closed before or not; [sq_scroll_close] raises its IO
    error exactly when that [fclose] reports failure, and
    [sq_scroll_deallocate] never raises.  [write], [seek] and [read] (with
    a numeral or the newline text) start by calling [fwrite], [fseek],
    [fread] and [fgetln] in the same way on every handle. *)
Theorem stdio_is_called_in_any_state (m : machine) :
  log (snd (sq_scroll_close m)) = log m ++ [Cfclose] /\
  log (snd (sq_scroll_deallocate m)) = log m ++ [Cfclose] /\
  fst (sq_scroll_deallocate m) = Return tt /\
  (fst (fclose m) = Return 0 -> fst (sq_scroll_close m) = Return tt) /\
  (fst (fclose m) <> Return 0 ->
   fst (sq_scroll_close m)
   = Throw {| kind := IOError; fmt := "unable to close scroll '%s'"; fargs := [] |}) /\
  (forall args v, call_of args [v] ->
     log (snd (write_func args m))
     = log m ++ [Cfwrite (firstn (Z.to_nat (length (sq_value_to_text v)))
                            (ptr (sq_value_to_text v)))]) /\
  (forall args o w, call_of args [o; w] ->
     exists rest,
       log (snd (seek_func args m))
       = log m ++ Cfseek (to_long (sq_value_to_numeral o))
                    (to_int (sq_value_to_numeral w)) :: rest) /\
  (forall args N, call_of args [Numeral N] -> 0 <= N ->
     exists rest,
       log (snd (read_func args m)) = log m ++ Cfread (to_size_t N) :: rest) /\
  (forall args t, call_of args [Text t] -> strcmp_eq (ptr t) [x0a; x00] = true ->
     log (snd (read_func args m)) = log m ++ [Cfgetln]).
Proof.
  pose proof (fclose_log m) as Hlog.
  assert (Hd : sq_scroll_deallocate m = (Return tt, snd (fclose m))).
  { unfold sq_scroll_deallocate, bind, ret.
    destruct (fclose_returns m) as [H|H]; destruct (fclose m) as [r m'];
      cbn [fst] in H; subst r; reflexivity. }
  rewrite Hd. cbn [fst snd].
  split; [|split; [exact Hlog|split; [reflexivity|]]].
  { destruct (sq_scroll_close_outcome m) as [[_ H]|[_ H]]; rewrite H; exact Hlog. }
  split; [|split; [|split; [|split; [|split]]]].
  - intros Hok.
    destruct (sq_scroll_close_outcome m) as [[_ H]|[Hbad _]];
      [rewrite H; reflexivity | rewrite Hok in Hbad; discriminate].
  - intros Hfail.
    destruct (sq_scroll_close_outcome m) as [[Hok _]|[_ H]];
      [contradiction | rewrite H; reflexivity].
  - intros args v Hcall.
    destruct (write_func_outcome args v m Hcall) as (n & _ & Hw).
    rewrite Hw. apply fwrite_log.
  - intros args o w Hcall. apply seek_func_log, Hcall.
  - intros args N Hcall HN. apply read_numeral_log; assumption.
  - intros args t Hcall Hnl. apply (read_newline_log args t); assumption.
Qed.

(** *** The buffer of a text that was read *)

(** A buffer of one byte more than [bytes], filled with [bytes] from the
    start and closed by a zero byte behind them. *)
Lemma store_terminated (buf bytes : list byte) :
  List.length buf = S (List.length bytes) ->
  store (store buf 0 bytes) (Z.of_nat (List.length bytes)) [x00] = bytes ++ [x00].
Proof.
  intros Hlen. unfold store. rewrite Nat2Z.id. simpl.
  rewrite List.firstn_app, List.firstn_all, Nat.sub_diag. simpl.
  rewrite List.app_nil_r. f_equal. f_equal.
  apply List.skipn_all2. rewrite List.length_app, List.length_skipn. lia.
Qed.

(** *** The loop bound is never reached *)

(** For every request a [size_t] can hold, the loop returns with fuel for
    one more round than bytes are missing: each further round has moved
    [position] forward, and never past the request. *)
Lemma read_loop_returns (fuel : nat) :
  forall (N pos : Z) (buf : list byte) (m : machine),
    0 <= pos <= N -> N < 2 ^ 64 ->
    (Z.to_nat (N - pos) < fuel)%nat ->
    exists r m', read_loop fuel N pos buf m = (Return r, m').
Proof.
  clear.
  induction fuel as [|fuel IH]; intros N pos buf m Hpos HN Hfuel; [lia|].
  cbn [read_loop].
  rewrite to_size_t_small by lia.
  destruct (fread_reads (N - pos) m) as (got & Hf & _ & _ & Hle & _).
  rewrite (bind_return _ _ _ _ _ Hf).
  set (nread := to_unsigned (Z.of_nat (List.length got))).
  assert (Hn : 0 <= nread <= Z.of_nat (List.length got)).
  { unfold nread, to_unsigned. split.
    - apply Z.mod_pos_bound. lia.
    - apply Z.mod_le; lia. }
  destruct (Z.eqb_spec nread 0) as [Hzero|Hsome]; cbn [negb].
  - unfold ret. eauto.
  - rewrite to_size_t_small by lia. apply IH; lia.
Qed.

(** [sq_scroll_read] ends in one of two ways for every request a [size_t]
    can hold: with the IO error, or with the allocated text, whose [length]
    is the one [sq_text_allocate] gave it. *)
Lemma sq_scroll_read_returns (N : Z) (m : machine) :
  0 <= N < 2 ^ 64 ->
  (exists t m', sq_scroll_read N m = (Return t, m') /\
                length t = length (sq_text_allocate N)) \/
  (exists m', sq_scroll_read N m
              = (Throw {| kind := IOError; fmt := "unable to read %zu bytes from '%s'";
                          fargs := [ArgNum N; ArgStr (filename (scroll m'))] |}, m')).
Proof.
  intros HN.
  destruct (read_loop_returns (S (Z.to_nat N)) N 0 (ptr (sq_text_allocate N)) m)
    as ([position buf] & m1 & Hloop); try lia.
  unfold sq_scroll_read. rewrite (bind_return _ _ _ _ _ Hloop).
  unfold bind, ferror, get_scroll, sq_throw_io, ret.
  cbn [log_call scroll file fst snd].
  destruct (err_ind (file (scroll m1))).
  - right. eexists. reflexivity.
  - left. eexists. eexists. split; reflexivity.
Qed.

(** [nread] is an [unsigned]: an [fread] that obtains a multiple of 2^32
    bytes looks like one that obtained none, and ends the loop with
    [position] where it was. *)
Lemma read_loop_wraps (fuel : nat) (N pos : Z) (buf got : list byte) (m m' : machine) :
  fread (to_size_t (N - pos)) m = (Return got, m') ->
  to_unsigned (Z.of_nat (List.length got)) = 0 ->
  read_loop (S fuel) N pos buf m = (Return (pos, store buf pos got), m').
Proof.
  intros Hf Hwrap. cbn [read_loop].
  rewrite (bind_return _ _ _ _ _ Hf), Hwrap. reflexivity.
Qed.

(** *** read with a negative numeral *)

(** C9.  [read] with a negative numeral raises the plain error "can only
    read nonnegative amounts", whatever state the handle is in, and the
    machine is left as it was: nothing was appended to the record of stdio
    calls, no scripted event was consumed. *)
Theorem read_negative_numeral_raises (args : sq_args) (n : Z) (m : machine) :
  call_of args [Numeral n] -> n < 0 ->
  read_func args m
  = (Throw {| kind := PlainError; fmt := "can only read nonnegative amounts";
              fargs := [] |}, m).
Proof.
  intros [Hargs Hkw] Hneg.
  unfold read_func. run. rewrite Hargs, Hkw. simpl.
  destruct (n <? 0) eqn:E; [reflexivity | apply Z.ltb_ge in E; lia].
Qed.

(** *** read with anything else *)

Lemma bytes_eqb_eq (p q : list byte) : bytes_eqb p q = true <-> p = q.
Proof.
  revert q. induction p as [|a p IH]; intros [|b q]; cbn [bytes_eqb];
    try (split; [discriminate | discriminate]); [split; reflexivity|].
  rewrite Bool.andb_true_iff, IH. split.
  - intros [Hab ->]. apply Byte.byte_dec_bl in Hab. subst b. reflexivity.
  - intros H. injection H as -> ->. split; [apply Byte.byte_dec_lb|]; reflexivity.
Qed.

Lemma strcmp_newline (p : list byte) :
  strcmp_eq p [x0a; x00] = true <-> cstr p = [x0a].
Proof. unfold strcmp_eq. rewrite bytes_eqb_eq. reflexivity. Qed.

(** [read] with a text compares the text's buffer with "\n" as C strings:
    the call ends the process with "todo: non-newline gets", before any
    stdio call, exactly when the bytes of the buffer before its first zero
    byte are not the single newline.  The [length] of the text is not
    looked at, so a text whose buffer goes on behind a newline and a zero
    byte is taken for the newline. *)
Lemma read_func_other_text (args : sq_args) (t : sq_text) (m : machine) :
  call_of args [Text t] ->
  (read_func args m = (Die "todo: non-newline gets", m) <-> cstr (ptr t) <> [x0a]).
Proof.
  intros Hcall. rewrite <- strcmp_newline.
  destruct (strcmp_eq (ptr t) [x0a; x00]) eqn:Hnl.
  - split; [|congruence]. intros Hdie.
    rewrite (read_func_newline args t m Hcall Hnl) in Hdie.
    unfold bind in Hdie. destruct (fgetln_returns m) as [r Hr].
    destruct (fgetln m) as [res m1]. cbn [fst] in Hr. subst res.
    destruct r; discriminate Hdie.
  - split; [discriminate|]. intros _.
    destruct Hcall as [Hargs Hkw]. unfold read_func, pargc, parg.
    rewrite Hargs, Hkw. cbn [nth sq_value_as_text sq_value_genus_tag].
    rewrite Hnl. reflexivity.
Qed.

(** A value that is no numeral, no text and not [SQ_NI] raises the plain
    error that names its type, and stdio is not called. *)
Lemma read_func_other_kind (args : sq_args) (v : sq_value) (m : machine) :
  call_of args [v] ->
  sq_value_genus_tag v <> SQ_G_NUMERAL -> sq_value_genus_tag v <> SQ_G_TEXT ->
  v <> SQ_NI ->
  read_func args m
  = (Throw {| kind := PlainError; fmt := "invalid read arugment kind '%s'";
              fargs := [ArgStr (sq_value_typename v)] |}, m).
Proof.
  intros [Hargs Hkw] Hnum Htext Hni. unfold read_func, pargc, parg.
  rewrite Hargs, Hkw. cbn [nth].
  destruct v; try reflexivity; contradiction.
Qed.

(** A call with another number of arguments than two fails the first
    assertion. *)
Lemma read_func_arity (args : sq_args) (m : machine) :
  List.length (pargv args) <> 2%nat ->
  read_func args m = (AssertFail "args.pargc == 2", m).
Proof.
  intros H. unfold read_func, pargc, bind, assert.
  destruct (Z.eqb_spec (Z.of_nat (List.length (pargv args))) 2); [lia | reflexivity].
Qed.

(** *** Further properties of the methods *)

(** [read] with a numeral [N < 2^32] takes some [k <= N] bytes from the
    stream by repeated [fread]s, the first of them for [N] bytes and the
    last one obtaining nothing.  If the stream's error indicator is set
    after the loop, the call raises the IO error that names [N] and the file
    name, and the text is dropped; otherwise it returns the allocated text
    with the [k] bytes and a zero byte behind them in its buffer. *)
Theorem read_numeral_accumulates (args : sq_args) (N : Z) (m : machine) :
  call_of args [Numeral N] -> 0 <= N < 2 ^ 32 ->
  exists (k : nat) (m_last m_loop : machine),
    Z.of_nat k <= N /\
    reads k m m_loop /\
    fread (N - Z.of_nat k) m_last = (Return [], m_loop) /\
    (exists counts, log m_loop = log m ++ Cfread N :: map Cfread counts) /\
    read_func args m
    = (if err_ind (file (scroll m_loop))
       then Throw {| kind := IOError; fmt := "unable to read %zu bytes from '%s'";
                     fargs := [ArgNum N; ArgStr (filename (scroll m))] |}
       else Return (Text (with_ptr (sq_text_allocate N)
                            (store (store (ptr (sq_text_allocate N)) 0
                                      (firstn k (remaining (file (scroll m)))))
                               (Z.of_nat k) [x00]))),
       log_call Cferror m_loop).
Proof.
  intros Hcall HN.
  destruct (sq_scroll_read_spec N m HN)
    as (k & m_last & m_loop & Hk & _ & Hlast & Hr & Hlog & Hread).
  exists k, m_last, m_loop.
  refine (conj Hk (conj Hr (conj Hlast (conj Hlog _)))).
  rewrite (read_func_numeral args N m Hcall HN).
  unfold bind, ret. rewrite Hread.
  destruct (err_ind (file (scroll m_loop))); reflexivity.
Qed.

(** [read] with a numeral on a stream that ends before [N] bytes, in an
    environment that fails no call: the call succeeds with what was left,
    [min N (bytes left)] bytes, and the stream is at its end. *)
Theorem read_numeral_short_stream_succeeds (args : sq_args) (N : Z) (m : machine) :
  call_of args [Numeral N] -> 0 <= N < 2 ^ 32 ->
  is_open (file (scroll m)) = true -> script m = [] ->
  err_ind (file (scroll m)) = false ->
  let left := remaining (file (scroll m)) in
  let k := Nat.min (Z.to_nat N) (List.length left) in
  exists p m',
    read_func args m = (Return (Text (with_ptr (sq_text_allocate N) p)), m') /\
    p = store (store (ptr (sq_text_allocate N)) 0 (firstn k left)) (Z.of_nat k) [x00] /\
    position (file (scroll m')) = (position (file (scroll m)) + k)%nat.
Proof.
  intros Hcall HN Hopen Hscript Herr left k.
  destruct (sq_scroll_read_to_the_end N m HN Hopen Hscript Herr)
    as (m_loop & Hread & Hr & _).
  fold left k in Hread, Hr.
  eexists. exists (log_call Cferror m_loop).
  rewrite (read_func_numeral args N m Hcall HN), (bind_return _ _ _ _ _ Hread).
  split; [reflexivity|]. split; [reflexivity|].
  destruct Hr as (_ & Hp & _). exact Hp.
Qed.

(** [read] with the newline text, on a calm stream with something left
    whose next line holds no zero byte, returns the text [sq_text_new]
    makes of that line, its newline included when it has one, and moves
    the position behind the line. *)
Theorem read_newline_returns_whole_line (args : sq_args) (t : sq_text) (m : machine) :
  call_of args [Text t] -> strcmp_eq (ptr t) [x0a; x00] = true ->
  calm m -> remaining (file (scroll m)) <> [] ->
  let line := line_of (remaining (file (scroll m))) in
  ~ In x00 line ->
  fst (read_func args m) = Return (Text (sq_text_new line)) /\
  position (file (scroll (snd (read_func args m))))
  = (position (file (scroll m)) + List.length line)%nat /\
  (exists rest, remaining (file (scroll m)) = line ++ rest) /\
  ((exists body, line = body ++ [x0a] /\ ~ In x0a body) \/
   (line = remaining (file (scroll m)) /\ ~ In x0a line)).
Proof.
  intros Hcall Hnl Hcalm Hrem line Hzero.
  destruct (read_newline_returns_line args t m Hcall Hnl Hcalm Hrem) as (Hr & Hp & _).
  fold line in Hr, Hp. rewrite (strndup_whole line Hzero) in Hr.
  destruct (line_of_prefix (remaining (file (scroll m)))) as (rest & Hrest & Hshape).
  fold line in Hrest, Hshape.
  split; [exact Hr|]. split; [exact Hp|]. split; [exists rest; exact Hrest|].
  destruct Hshape as [H|[H1 H2]]; [left; exact H|].
  right. split; [exact H1|]. rewrite H1. exact H2.
Qed.

(** When [fopen] fails, [sq_scroll_init] has already stored the null
    pointer it answered in [scroll->file], so the stream the scroll held
    before is no longer reachable through it; the call then raises the IO
    error "cannot open file '%s'" with the file name.  Neither the two
    names of the scroll nor the journey variables are assigned. *)
Theorem open_failure_raises_io_error (fname fmode : string) (m : machine) :
  os_fopen fname fmode = None ->
  sq_scroll_init fname fmode m
  = (Throw {| kind := IOError; fmt := "cannot open file '%s'";
              fargs := [ArgStr fname] |},
     set_file null_file (log_call (Cfopen fname fmode) m)) /\
  file (scroll (snd (sq_scroll_init fname fmode m))) = null_file /\
  names_and_journeys (snd (sq_scroll_init fname fmode m)) = names_and_journeys m.
Proof.
  intros H.
  assert (Hrun : sq_scroll_init fname fmode m
                 = (Throw {| kind := IOError; fmt := "cannot open file '%s'";
                             fargs := [ArgStr fname] |},
                    set_file null_file (log_call (Cfopen fname fmode) m))).
  { unfold sq_scroll_init, fopen, bind, sq_throw_io. rewrite H. reflexivity. }
  rewrite Hrun. repeat split.
Qed.

(** [close] on an open handle whose [fclose] succeeds returns [SQ_NI] and
    leaves the stream closed. *)
Theorem close_func_closes (args : sq_args) (m : machine) :
  call_of args [] -> calm m ->
  fst (close_func args m) = Return SQ_NI /\
  is_open (file (scroll (snd (close_func args m)))) = false /\
  log (snd (close_func args m)) = log m ++ [Cfclose].
Proof.
  intros [Hargs Hkw] [Hopen Hcalm].
  unfold close_func, sq_scroll_close. run. rewrite Hargs, Hkw. simpl.
  unfold fclose, next_event. cbn [log_call scroll file script].
  rewrite Hopen. cbn [negb].
  destruct (script m) as [|[|k|k code] rest]; simpl in Hcalm; try discriminate;
    simpl; auto.
Qed.

(** *** What a call leaves alone *)

Lemma preserves_ret {A X} (proj : machine -> X) (a : A) : preserves proj (ret a).
Proof. intros m. reflexivity. Qed.

Lemma preserves_still {A X} (proj : machine -> X) (c : M A) :
  (forall m, snd (c m) = m) -> preserves proj c.
Proof. intros H m. rewrite H. reflexivity. Qed.

Lemma preserves_bind {A B X} (proj : machine -> X) (c : M A) (k : A -> M B) :
  preserves proj c -> (forall a, preserves proj (k a)) -> preserves proj (bind c k).
Proof.
  intros Hc Hk m. unfold bind. specialize (Hc m).
  destruct (c m) as [[a|e|msg|w|] m']; cbn [snd] in *; try exact Hc.
  rewrite (Hk a m'). exact Hc.
Qed.

Lemma preserves_assert {X} (proj : machine -> X) b what :
  preserves proj (assert b what).
Proof. intros m. unfold assert. destruct b; reflexivity. Qed.

Lemma preserves_as_scroll {X} (proj : machine -> X) v : preserves proj (as_scroll v).
Proof. intros m. unfold as_scroll. destruct v as [| | | | |[| |]|]; reflexivity. Qed.

(** Reading, seeking, telling and closing do not change what the stream
    holds. *)
Lemma contents_fread count : preserves stream_contents (fread count).
Proof. intros m. unfold stream_contents. stdio fread; reflexivity. Qed.

Lemma contents_fseek offset whence : preserves stream_contents (fseek offset whence).
Proof. intros m. unfold stream_contents. stdio fseek; reflexivity. Qed.

Lemma contents_ftell : preserves stream_contents ftell.
Proof. intros m. unfold stream_contents. stdio ftell; reflexivity. Qed.

Lemma contents_fclose : preserves stream_contents fclose.
Proof. intros m. unfold stream_contents. stdio fclose; reflexivity. Qed.

Lemma contents_fgetln : preserves stream_contents fgetln.
Proof. intros m. unfold stream_contents. stdio fgetln; reflexivity. Qed.

(** Nothing but [fclose] closes the stream. *)
Lemma open_fread count : preserves stream_is_open (fread count).
Proof. intros m. unfold stream_is_open. stdio fread; reflexivity. Qed.

Lemma open_fwrite bytes : preserves stream_is_open (fwrite bytes).
Proof.
  intros m. unfold stream_is_open.
  stdio fwrite; try reflexivity; apply overwrite_flags.
Qed.

Lemma open_fseek offset whence : preserves stream_is_open (fseek offset whence).
Proof. intros m. unfold stream_is_open. stdio fseek; reflexivity. Qed.

Lemma open_ftell : preserves stream_is_open ftell.
Proof. intros m. unfold stream_is_open. stdio ftell; reflexivity. Qed.

Lemma open_fgetln : preserves stream_is_open fgetln.
Proof. intros m. unfold stream_is_open. stdio fgetln; reflexivity. Qed.

(** Walking through a computation, given the facts about its stdio calls. *)
Ltac frames :=
  repeat (intros;
          match goal with
          | |- preserves _ (bind _ _) => apply preserves_bind
          | |- preserves _ (if ?b then _ else _) => destruct b
          | |- preserves _ (match ?x with _ => _ end) => destruct x
          | |- preserves _ (ret _) => apply preserves_ret
          | |- preserves _ (assert _ _) => apply preserves_assert
          | |- preserves _ (as_scroll _) => apply preserves_as_scroll
          | |- preserves _ (fread _) => first [apply contents_fread | apply open_fread]
          | |- preserves _ (fwrite _) => apply open_fwrite
          | |- preserves _ (fseek _ _) => first [apply contents_fseek | apply open_fseek]
          | |- preserves _ ftell => first [apply contents_ftell | apply open_ftell]
          | |- preserves _ fgetln => first [apply contents_fgetln | apply open_fgetln]
          | |- preserves _ fclose => apply contents_fclose
          | |- preserves _ _ => solve [apply preserves_still; reflexivity]
          | |- preserves _ _ => solve [intros ?; reflexivity]
          end).

Lemma preserves_read_loop {X} (proj : machine -> X) (fuel : nat) :
  (forall count, preserves proj (fread count)) ->
  forall N pos buf, preserves proj (read_loop fuel N pos buf).
Proof.
  clear. intros Hfread.
  induction fuel as [|fuel IH]; intros N pos buf; cbn [read_loop].
  - apply preserves_still. reflexivity.
  - apply preserves_bind; [apply Hfread|]. intros got.
    destruct (negb _); [apply IH | apply preserves_ret].
Qed.

Lemma preserves_sq_scroll_read {X} (proj : machine -> X) (N : Z) :
  (forall count, preserves proj (fread count)) -> preserves proj ferror ->
  preserves proj (sq_scroll_read N).
Proof.
  intros Hfread Hferror. unfold sq_scroll_read.
  apply preserves_bind; [apply preserves_read_loop, Hfread|].
  intros [position buf]. apply preserves_bind; [exact Hferror|]. frames.
Qed.

Lemma preserves_read_func {X} (proj : machine -> X) (args : sq_args) :
  (forall count, preserves proj (fread count)) -> preserves proj ferror ->
  preserves proj fgetln ->
  preserves proj (read_func args).
Proof.
  intros Hfread Hferror Hfgetln. unfold read_func, sq_scroll_read_all.
  do 3 (apply preserves_bind; [frames | intros _]).
  destruct (sq_value_genus_tag (parg args 1)).
  - destruct (sq_value_eqb_ni _); frames.
  - destruct (_ <? 0); [frames|].
    apply preserves_bind; [apply preserves_sq_scroll_read; assumption | frames].
  - destruct (negb _); [frames|].
    apply preserves_bind; [exact Hfgetln|]. intros [line|]; frames.
  - frames.
Qed.

Lemma contents_read_func args : preserves stream_contents (read_func args).
Proof.
  apply preserves_read_func;
    [apply contents_fread | intros m; reflexivity | apply contents_fgetln].
Qed.

Lemma contents_seek_func args : preserves stream_contents (seek_func args).
Proof. unfold seek_func, sq_scroll_seek, sq_scroll_tell. frames. Qed.

Lemma contents_close_func args : preserves stream_contents (close_func args).
Proof. unfold close_func, sq_scroll_close. frames. Qed.

Lemma open_read_func args : preserves stream_is_open (read_func args).
Proof.
  apply preserves_read_func;
    [apply open_fread | intros m; reflexivity | apply open_fgetln].
Qed.

Lemma open_write_func args : preserves stream_is_open (write_func args).
Proof. unfold write_func, sq_scroll_write. frames. Qed.

Lemma open_seek_func args : preserves stream_is_open (seek_func args).
Proof. unfold seek_func, sq_scroll_seek, sq_scroll_tell. frames. Qed.

(** *** Runs of calls *)

Lemma run_calls_invariant {X} (proj : machine -> X)
      (allowed : native -> Prop) (calls : list (native * sq_args)) :
  (forall f args, allowed f -> preserves proj (native_func f args)) ->
  (forall f args, In (f, args) calls -> allowed f) ->
  forall m, proj (run_calls calls m) = proj m.
Proof.
  clear. intros Hstep.
  induction calls as [|[f args] rest IH]; intros Hall m; cbn [run_calls].
  - reflexivity.
  - assert (Hf : allowed f) by (apply (Hall f args); left; reflexivity).
    assert (Hrest : forall g a, In (g, a) rest -> allowed g)
      by (intros g a Hin; apply (Hall g a); right; exact Hin).
    specialize (Hstep f args Hf m).
    destruct (native_func f args m) as [[v|e|msg|w|] m']; cbn [snd] in Hstep;
      try exact Hstep.
    + rewrite (IH Hrest m'). exact Hstep.
    + rewrite (IH Hrest m'). exact Hstep.
Qed.

Lemma keeps_native_func f args : preserves names_and_journeys (native_func f args).
Proof.
  destruct f; cbn [native_func]; intros m;
    [apply keeps_write_func | apply keeps_read_func
     | apply keeps_seek_func | apply keeps_close_func].
Qed.

Lemma get_attr_of_names (m m' : machine) (attr : string) :
  names_and_journeys m' = names_and_journeys m ->
  sq_scroll_get_attr m' attr = sq_scroll_get_attr m attr.
Proof.
  unfold names_and_journeys, sq_scroll_get_attr. intros H.
  injection H as -> -> -> -> -> _. reflexivity.
Qed.

(** The attributes of a handle do not change over its life: after any
    run of [write], [read], [seek] and [close] calls, with any arguments,
    whether they returned or raised and whatever the environment did,
    [sq_scroll_get_attr] answers every name as it did before the run (so
    "filename" and "mode" can still be asked of a closed handle). *)
Theorem attributes_outlive_calls (calls : list (native * sq_args))
        (m : machine) (attr : string) :
  sq_scroll_get_attr (run_calls calls m) attr = sq_scroll_get_attr m attr.
Proof.
  apply get_attr_of_names.
  apply (run_calls_invariant names_and_journeys (fun _ => True)).
  - intros f args _. apply keeps_native_func.
  - intros; exact I.
Qed.

(** [write] is the only method that changes what the stream holds: a
    run of [read], [seek] and [close] calls, with any arguments and in any
    environment, leaves the contents byte for byte as they were. *)
Theorem only_write_changes_contents (calls : list (native * sq_args)) (m : machine) :
  (forall f args, In (f, args) calls -> f <> Fwrite) ->
  stream_contents (run_calls calls m) = stream_contents m.
Proof.
  intros Hall.
  apply (run_calls_invariant stream_contents (fun f => f <> Fwrite)); [|exact Hall].
  intros f args Hf. destruct f; cbn [native_func];
    [congruence | apply contents_read_func
     | apply contents_seek_func | apply contents_close_func].
Qed.

(** [close] is the only method that closes the stream: a run of
    [write], [read] and [seek] calls leaves an open stream open, also when
    calls in it failed and raised. *)
Theorem only_close_closes (calls : list (native * sq_args)) (m : machine) :
  (forall f args, In (f, args) calls -> f <> Fclose) ->
  stream_is_open (run_calls calls m) = stream_is_open m.
Proof.
  intros Hall.
  apply (run_calls_invariant stream_is_open (fun f => f <> Fclose)); [|exact Hall].
  intros f args Hf. destruct f; cbn [native_func];
    [apply open_write_func | apply open_read_func
     | apply open_seek_func | congruence].
Qed.

(** *** Assertions *)

Lemma never_bind {A B} (c : M A) (k : A -> M B) :
  never_asserts c -> (forall a, never_asserts (k a)) -> never_asserts (bind c k).
Proof.
  intros Hc Hk m what. unfold bind. specialize (Hc m).
  destruct (c m) as [[a|e|msg|w|] m']; cbn [fst] in *;
    try discriminate; [apply Hk | exfalso; exact (Hc w eq_refl)].
Qed.

Lemma never_returns {A} (c : M A) :
  (forall m, exists a, fst (c m) = Return a) -> never_asserts c.
Proof. intros H m what. destruct (H m) as [a ->]. discriminate. Qed.

Lemma never_fseek offset whence : never_asserts (fseek offset whence).
Proof. intros m what. destruct (fseek_returns offset whence m) as [-> | ->]; discriminate. Qed.

Lemma never_fclose : never_asserts fclose.
Proof. intros m what. destruct (fclose_returns m) as [-> | ->]; discriminate. Qed.

Ltac calm_inside :=
  repeat (intros;
          match goal with
          | |- never_asserts (bind _ _) => apply never_bind
          | |- never_asserts (if ?b then _ else _) => destruct b
          | |- never_asserts (match ?x with _ => _ end) => destruct x
          | |- never_asserts (fread _) => apply never_returns, fread_returns
          | |- never_asserts (fwrite _) => apply never_returns, fwrite_returns
          | |- never_asserts ftell => apply never_returns, ftell_returns
          | |- never_asserts fgetln => apply never_returns, fgetln_returns
          | |- never_asserts (fseek _ _) => apply never_fseek
          | |- never_asserts fclose => apply never_fclose
          | |- never_asserts _ => solve [intros ? ?; discriminate]
          end).

Lemma never_read_loop (fuel : nat) :
  forall N pos buf, never_asserts (read_loop fuel N pos buf).
Proof.
  clear.
  induction fuel as [|fuel IH]; intros N pos buf; cbn [read_loop].
  - intros m what. discriminate.
  - apply never_bind; [calm_inside|]. intros got.
    destruct (negb _); [apply IH | calm_inside].
Qed.

Lemma never_sq_scroll_read N : never_asserts (sq_scroll_read N).
Proof.
  unfold sq_scroll_read. apply never_bind; [apply never_read_loop|].
  intros [position buf]. calm_inside.
Qed.

(** A method body behind its three checks: an assertion fails exactly when
    one of the checks does. *)
Lemma checks_then_body (n : Z) (w1 w2 : string) (args : sq_args) (body : M sq_value) :
  never_asserts body ->
  forall m,
    (exists what,
        fst ((assert (pargc args =? n) w1 ;;
              assert (kwargc args =? 0) w2 ;;
              as_scroll (parg args 0) ;;
              body) m) = AssertFail what)
    <-> (pargc args <> n \/ kwargc args <> 0 \/ parg args 0 <> Other OScroll).
Proof.
  intros Hbody m. unfold bind at 1, assert at 1.
  destruct (Z.eqb_spec (pargc args) n) as [Hn|Hn].
  2:{ split; [auto | intros _; eexists; reflexivity]. }
  unfold bind at 1, assert at 1.
  destruct (Z.eqb_spec (kwargc args) 0) as [Hk|Hk].
  2:{ split; [auto | intros _; eexists; reflexivity]. }
  unfold bind at 1.
  destruct (parg args 0) as [| | | | |[| |]|] eqn:Hrecv; cbn [as_scroll ret];
    try (split; [intros _; right; right; discriminate | intros _; eexists; reflexivity]).
  split.
  - intros [what Hw]. exfalso. exact (Hbody m what Hw).
  - intros [H|[H|H]]; congruence.
Qed.

Lemma native_func_asserts (f : native) (args : sq_args) (m : machine) :
  (exists what, fst (native_func f args m) = AssertFail what)
  <-> (pargc args <> match f with Fwrite | Fread => 2 | Fseek => 3 | Fclose => 1 end
       \/ kwargc args <> 0 \/ parg args 0 <> Other OScroll).
Proof.
  destruct f; cbn [native_func];
    [unfold write_func | unfold read_func | unfold seek_func | unfold close_func];
    apply checks_then_body.
  - unfold sq_scroll_write. calm_inside.
  - unfold sq_scroll_read_all.
    destruct (sq_value_genus_tag (parg args 1)); calm_inside.
    apply never_sq_scroll_read.
  - unfold sq_scroll_seek, sq_scroll_tell. calm_inside.
  - unfold sq_scroll_close. calm_inside.
Qed.

(** Each method asserts the argument count its journey declares.  For
    the journey [sq_scroll_init] stored under any of the four names, a call
    of the journey's function on a scroll receiver without keyword arguments
    fails an assertion exactly when the number of positional arguments
    differs from the journey's [nargs]; a call with [nargs] arguments ends in
    a value, a raised error or [die], never in a failed assertion. *)
Theorem journeys_assert_their_arity (fname fmode : string) (m : machine)
        (j : builtin_journey) (args : sq_args) (m' : machine) :
  opened_as fname fmode m ->
  In (Other (OJourney 1 j))
     [write_journey m; read_journey m; seek_journey m; close_journey m] ->
  kwargc args = 0 -> parg args 0 = Other OScroll ->
  (exists what, fst (native_func (func j) args m') = AssertFail what)
  <-> pargc args <> nargs j.
Proof.
  unfold opened_as, names_and_journeys, NEW_JOURNEY.
  intros Hopen Hin Hkw Hrecv. injection Hopen as _ _ Hw Hr Hs Hc.
  rewrite native_func_asserts.
  assert (Harity : nargs j = match func j with
                             | Fwrite | Fread => 2 | Fseek => 3 | Fclose => 1
                             end).
  { rewrite Hw, Hr, Hs, Hc in Hin.
    destruct Hin as [H|[H|[H|[H|[]]]]]; injection H as <-; reflexivity. }
  rewrite Harity. split; [|auto].
  intros [H|[H|H]]; [exact H | contradiction | contradiction].
Qed.

(** *** The error indicator *)

Lemma maintains_bind {A B} (P : machine -> Prop) (c : M A) (k : A -> M B) :
  maintains P c -> (forall a, maintains P (k a)) -> maintains P (bind c k).
Proof.
  intros Hc Hk m HP. unfold bind. specialize (Hc m HP).
  destruct (c m) as [[a|e|msg|w|] m']; cbn [snd] in *; try exact Hc.
  apply Hk, Hc.
Qed.

Lemma maintains_still {A} (P : machine -> Prop) (c : M A) :
  (forall m, snd (c m) = m) -> maintains P c.
Proof. intros H m HP. rewrite H. exact HP. Qed.

Lemma maintains_assert (P : machine -> Prop) b what : maintains P (assert b what).
Proof. apply maintains_still. intros m. unfold assert. destruct b; reflexivity. Qed.

Lemma maintains_as_scroll (P : machine -> Prop) v : maintains P (as_scroll v).
Proof.
  apply maintains_still. intros m. unfold as_scroll.
  destruct v as [| | | | |[| |]|]; reflexivity.
Qed.

Ltac maintained :=
  repeat (intros;
          match goal with
          | |- maintains _ (bind _ _) => apply maintains_bind
          | |- maintains _ (assert _ _) => apply maintains_assert
          | |- maintains _ (as_scroll _) => apply maintains_as_scroll
          | |- maintains _ (if ?b then _ else _) => destruct b
          | |- maintains _ (match ?x with _ => _ end) => destruct x
          | |- maintains _ _ => solve [apply maintains_still; reflexivity]
          | |- maintains _ _ => solve [auto]
          end).

Lemma maintains_read_loop (P : machine -> Prop) (fuel : nat) :
  (forall count, maintains P (fread count)) ->
  forall N pos buf, maintains P (read_loop fuel N pos buf).
Proof.
  clear. intros Hfread.
  induction fuel as [|fuel IH]; intros N pos buf; cbn [read_loop].
  - apply maintains_still. reflexivity.
  - apply maintains_bind; [apply Hfread|]. intros got.
    destruct (negb _); [apply IH | apply maintains_still; reflexivity].
Qed.

(** A property that every stdio call keeps is kept by every method. *)
Lemma maintains_native_func (P : machine -> Prop) :
  (forall count, maintains P (fread count)) ->
  (forall bytes, maintains P (fwrite bytes)) ->
  (forall offset whence, maintains P (fseek offset whence)) ->
  maintains P ftell -> maintains P fclose -> maintains P ferror ->
  maintains P fgetln ->
  forall f args, maintains P (native_func f args).
Proof.
  intros Hfread Hfwrite Hfseek Hftell Hfclose Hferror Hfgetln f args.
  destruct f; cbn [native_func].
  - unfold write_func, sq_scroll_write. maintained.
  - unfold read_func, sq_scroll_read_all.
    do 3 (apply maintains_bind; [maintained | intros _]).
    destruct (sq_value_genus_tag (parg args 1)); maintained.
    unfold sq_scroll_read.
    apply maintains_bind; [apply maintains_read_loop, Hfread|].
    intros [position buf]. maintained.
  - unfold seek_func, sq_scroll_seek, sq_scroll_tell. maintained.
  - unfold close_func, sq_scroll_close. maintained.
Qed.

Lemma run_calls_maintains (P : machine -> Prop) (calls : list (native * sq_args)) :
  (forall f args, maintains P (native_func f args)) ->
  forall m, P m -> P (run_calls calls m).
Proof.
  clear. intros Hstep.
  induction calls as [|[f args] rest IH]; intros m HP; cbn [run_calls].
  - exact HP.
  - specialize (Hstep f args m HP).
    destruct (native_func f args m) as [[v|e|msg|w|] m']; cbn [snd] in Hstep;
      try exact Hstep; apply IH, Hstep.
Qed.

(** No stdio call of the model clears the error indicator, as none of the C
    library's does but [clearerr] and [rewind]. *)
Lemma error_stays_fread count : maintains (fun m => stream_error m = true) (fread count).
Proof. intros m. unfold stream_error. stdio fread; auto. Qed.

Lemma error_stays_fwrite bytes : maintains (fun m => stream_error m = true) (fwrite bytes).
Proof.
  intros m. unfold stream_error.
  stdio fwrite; auto; intros H;
    rewrite (proj1 (proj2 (overwrite_flags _ _))); exact H.
Qed.

Lemma error_stays_fseek offset whence :
  maintains (fun m => stream_error m = true) (fseek offset whence).
Proof. intros m. unfold stream_error. stdio fseek; auto. Qed.

Lemma error_stays_ftell : maintains (fun m => stream_error m = true) ftell.
Proof. intros m. unfold stream_error. stdio ftell; auto. Qed.

Lemma error_stays_fclose : maintains (fun m => stream_error m = true) fclose.
Proof. intros m. unfold stream_error. stdio fclose; auto. Qed.

Lemma error_stays_fgetln : maintains (fun m => stream_error m = true) fgetln.
Proof. intros m. unfold stream_error. stdio fgetln; auto. Qed.

Lemma error_stays (calls : list (native * sq_args)) (m : machine) :
  stream_error m = true -> stream_error (run_calls calls m) = true.
Proof.
  apply (run_calls_maintains (fun m => stream_error m = true)).
  apply maintains_native_func;
    auto using error_stays_fread, error_stays_fwrite, error_stays_fseek,
      error_stays_ftell, error_stays_fclose, error_stays_fgetln.
  intros m0 H. exact H.
Qed.

Lemma run_calls_names (calls : list (native * sq_args)) (m : machine) :
  names_and_journeys (run_calls calls m) = names_and_journeys m.
Proof.
  apply (run_calls_invariant names_and_journeys (fun _ => True)).
  - intros f args _. apply keeps_native_func.
  - intros; exact I.
Qed.

(** Where the loop of [sq_scroll_read] ends with the error indicator set,
    [read] with a nonnegative numeral raises. *)
Lemma read_func_with_error (args : sq_args) (n : Z) (m : machine) :
  call_of args [Numeral n] -> 0 <= n ->
  let N := to_size_t n in
  (forall r m2,
      read_loop (S (Z.to_nat N)) N 0 (ptr (sq_text_allocate N)) m = (Return r, m2) ->
      stream_error m2 = true) ->
  exists m',
    read_func args m
    = (Throw {| kind := IOError; fmt := "unable to read %zu bytes from '%s'";
                fargs := [ArgNum N; ArgStr (filename (scroll m))] |}, m') /\
    stream_error m' = true.
Proof.
  intros [Hargs Hkw] Hn N Hloop_err.
  assert (HN : 0 <= N < 2 ^ 64) by (apply Z.mod_pos_bound; lia).
  destruct (read_loop_returns (S (Z.to_nat N)) N 0 (ptr (sq_text_allocate N)) m)
    as ([position buf] & m2 & Hloop); try lia.
  pose proof (Hloop_err _ _ Hloop) as Herr2.
  assert (Hfile2 : filename (scroll m2) = filename (scroll m)).
  { pose proof (keeps_read_loop (S (Z.to_nat N)) N 0 (ptr (sq_text_allocate N)) m) as H.
    rewrite Hloop in H. unfold names_and_journeys in H. cbn [snd] in H. congruence. }
  exists (log_call Cferror m2). split; [|exact Herr2].
  unfold read_func, pargc, parg. rewrite Hargs, Hkw.
  cbn [nth sq_value_as_numeral sq_value_genus_tag].
  destruct (Z.ltb_spec n 0) as [|_]; [lia|]. fold N.
  unfold bind at 1. cbn [assert List.length Z.of_nat Z.eqb Pos.eqb Pos.of_succ_nat Pos.succ].
  unfold bind at 1. cbn [assert Z.eqb].
  unfold bind at 1. cbn [as_scroll ret].
  unfold sq_scroll_read, bind at 1.
  rewrite (bind_return _ _ _ _ _ Hloop).
  unfold bind, ferror, get_scroll, sq_throw_io.
  cbn [log_call scroll file fst snd]. unfold stream_error in Herr2.
  rewrite Herr2. cbn [log_call scroll filename]. rewrite Hfile2. reflexivity.
Qed.

(** The error indicator of the stream is never cleared.  Once it is
    set (by a transfer the OS failed), it stays set through any run of
    method calls, and every later [read] with a nonnegative numeral raises
    the IO error "unable to read %zu bytes from '%s'", whether or not the
    OS reads of that call went well. *)
Theorem read_error_is_sticky (calls : list (native * sq_args))
        (args : sq_args) (n : Z) (m : machine) :
  stream_error m = true ->
  call_of args [Numeral n] -> 0 <= n ->
  exists m',
    read_func args (run_calls calls m)
    = (Throw {| kind := IOError; fmt := "unable to read %zu bytes from '%s'";
                fargs := [ArgNum (to_size_t n); ArgStr (filename (scroll m))] |}, m').
Proof.
  intros Herr Hcall Hn.
  pose proof (error_stays calls m Herr) as Herr1.
  pose proof (run_calls_names calls m) as Hnames.
  assert (Hfile : filename (scroll (run_calls calls m)) = filename (scroll m))
    by (unfold names_and_journeys in Hnames; congruence).
  destruct (read_func_with_error args n (run_calls calls m) Hcall Hn) as (m' & Hr & _).
  - intros r m2 Hloop. change m2 with (snd (Return r, m2)). rewrite <- Hloop.
    apply maintains_read_loop; [apply error_stays_fread | exact Herr1].
  - exists m'. rewrite Hr, Hfile. reflexivity.
Qed.

Lemma fread_fault (count : Z) (k : nat) (code : Z) (rest : list os_event) (m : machine) :
  is_open (file (scroll m)) = true -> script m = Fault k code :: rest ->
  stream_error (snd (fread count m)) = true.
Proof.
  intros Hopen Hscript. unfold fread, next_event, stream_error.
  cbn [log_call scroll file script]. rewrite Hopen, Hscript. reflexivity.
Qed.

(** A failed OS read makes [read] raise.  On an open stream, when the
    OS fails the first read of the call, [read] with a nonnegative numeral
    raises the IO error "unable to read %zu bytes from '%s'" with the
    request and the file name, also when that read or later ones in the
    loop still delivered bytes; the error indicator is left set. *)
Theorem read_os_failure_raises (args : sq_args) (n : Z) (k : nat) (code : Z)
        (rest : list os_event) (m : machine) :
  call_of args [Numeral n] -> 0 <= n ->
  is_open (file (scroll m)) = true -> script m = Fault k code :: rest ->
  exists m',
    read_func args m
    = (Throw {| kind := IOError; fmt := "unable to read %zu bytes from '%s'";
                fargs := [ArgNum (to_size_t n); ArgStr (filename (scroll m))] |}, m') /\
    stream_error m' = true.
Proof.
  intros Hcall Hn Hopen Hscript.
  apply (read_func_with_error args n m Hcall Hn).
  intros r m2. cbn [read_loop].
  set (count := to_size_t (to_size_t n - 0)).
  pose proof (fread_fault count k code rest m Hopen Hscript) as Hfault.
  destruct (fread_reads count m) as (got & Hf & _).
  rewrite (bind_return _ _ _ _ _ Hf).
  destruct (negb _).
  - intros Hloop. change m2 with (snd (Return r, m2)). rewrite <- Hloop.
    apply maintains_read_loop; [apply error_stays_fread | exact Hfault].
  - unfold ret. intros H. injection H as _ <-. exact Hfault.
Qed.

(** At the end of the stream [read] with the newline text reports an
    error that did not happen.  [fgetln] answers [NULL] there without
    setting [errno], so the message raised is [strerror] of the [errno] an
    earlier, unrelated call left behind, or of 0. *)
Theorem read_newline_at_end_uses_stale_errno (args : sq_args) (t : sq_text) (m : machine) :
  call_of args [Text t] -> strcmp_eq (ptr t) [x0a; x00] = true ->
  calm m -> remaining (file (scroll m)) = [] ->
  fst (read_func args m)
  = Throw {| kind := PlainError; fmt := strerror (errno m); fargs := [] |} /\
  errno (snd (read_func args m)) = errno m.
Proof.
  intros Hcall Hnl [Hopen Hcalm] Hrem.
  rewrite (read_func_newline args t m Hcall Hnl).
  unfold bind, fgetln, next_event. cbn [log_call scroll file script].
  rewrite Hopen, Hrem. cbn [negb].
  destruct (script m) as [|[|k|k code] rest]; simpl in Hcalm; try discriminate;
    split; reflexivity.
Qed.

(** When the OS fails the line read, [read] with the newline text
    raises the plain error whose message is the description of that OS
    error, and the error indicator is left set. *)
Theorem read_newline_os_failure (args : sq_args) (t : sq_text) (k : nat) (code : Z)
        (rest : list os_event) (m : machine) :
  call_of args [Text t] -> strcmp_eq (ptr t) [x0a; x00] = true ->
  is_open (file (scroll m)) = true -> script m = Fault k code :: rest ->
  fst (read_func args m)
  = Throw {| kind := PlainError; fmt := strerror code; fargs := [] |} /\
  stream_error (snd (read_func args m)) = true.
Proof.
  intros Hcall Hnl Hopen Hscript.
  rewrite (read_func_newline args t m Hcall Hnl).
  unfold bind, fgetln, next_event. cbn [log_call scroll file script].
  rewrite Hopen, Hscript. repeat split; reflexivity.
Qed.

(** The names a scroll was opened with are the ones it reports.
    When the OS open succeeds, [sq_scroll_init] returns after that one OS
    call with the scroll on the stream it was given, and from then on,
    after any run of method calls, the "filename" and "mode" attributes are
    texts made of the two names and [sq_scroll_dump] prints them. *)
Theorem opened_names_persist (fname fmode : string) (f : FILE) (m : machine) :
  os_fopen fname fmode = Some f ->
  exists m',
    sq_scroll_init fname fmode m = (Return tt, m') /\
    file (scroll m') = f /\
    log m' = log m ++ [Cfopen fname fmode] /\
    forall calls,
      let m'' := run_calls calls m' in
      sq_scroll_get_attr m'' "filename" = Text (sq_text_new (strdup fname)) /\
      sq_scroll_get_attr m'' "mode" = Text (sq_text_new (strdup fmode)) /\
      sq_scroll_dump (scroll m'')
      = ("Scroll(%s, mode=%s)", [ArgStr fname; ArgStr fmode]).
Proof.
  intros Hopen. eexists.
  split; [unfold sq_scroll_init, fopen, bind; rewrite Hopen; reflexivity|].
  split; [reflexivity|]. split; [reflexivity|].
  intros calls m''. subst m''.
  set (m' := set_journeys _ _ _ _ _).
  pose proof (run_calls_names calls m') as Hnames.
  unfold sq_scroll_dump.
  rewrite !(get_attr_of_names m' (run_calls calls m') _ Hnames).
  unfold names_and_journeys in Hnames.
  injection Hnames as Hf Hm _ _ _ _. rewrite Hf, Hm. repeat split; reflexivity.
Qed.

(** *** Steps on a settled stream *)

Lemma fseek_settled (offset whence base : Z) (m : machine) :
  is_open (file (scroll m)) = true -> script m = [] ->
  seek_base (file (scroll m)) whence = Some base -> 0 <= base + offset ->
  fseek offset whence m
  = (Return 0,
     set_file (reposition (Z.to_nat (base + offset)) (file (scroll m)))
       (log_call (Cfseek offset whence) m)).
Proof.
  intros Hopen Hscript Hbase Htarget.
  unfold fseek, next_event. cbn [log_call scroll file script].
  rewrite Hopen, Hscript, Hbase. cbn [negb].
  destruct (Z.ltb_spec (base + offset) 0); [lia | reflexivity].
Qed.

Lemma fseek_refused (offset whence : Z) (m : machine) :
  is_open (file (scroll m)) = true -> script m = [] ->
  (seek_base (file (scroll m)) whence = None \/
   exists base, seek_base (file (scroll m)) whence = Some base /\ base + offset < 0) ->
  fseek offset whence m
  = (Return (-1), set_errno EINVAL (log_call (Cfseek offset whence) m)).
Proof.
  intros Hopen Hscript Hbad.
  unfold fseek, next_event. cbn [log_call scroll file script].
  rewrite Hopen, Hscript. cbn [negb].
  destruct Hbad as [-> | (base & -> & Hneg)]; [reflexivity|].
  destruct (Z.ltb_spec (base + offset) 0); [reflexivity | lia].
Qed.

Lemma ftell_settled (m : machine) :
  is_open (file (scroll m)) = true -> script m = [] ->
  Z.of_nat (position (file (scroll m))) < 2 ^ 63 ->
  ftell m = (Return (Z.of_nat (position (file (scroll m)))), log_call Cftell m).
Proof.
  intros Hopen Hscript Hpos.
  unfold ftell, next_event. cbn [log_call scroll file script].
  rewrite Hopen, Hscript. cbn [negb].
  destruct (Z.leb_spec (2 ^ 63) (Z.of_nat (position (file (scroll m)))));
    [lia | reflexivity].
Qed.

Lemma seek_func_settled (args : sq_args) (o w : sq_value) (base : Z) (m : machine) :
  call_of args [o; w] ->
  is_open (file (scroll m)) = true -> script m = [] ->
  let offset := to_long (sq_value_to_numeral o) in
  let whence := to_int (sq_value_to_numeral w) in
  seek_base (file (scroll m)) whence = Some base ->
  0 <= base + offset < 2 ^ 63 ->
  seek_func args m
  = (Return (Numeral (base + offset)),
     log_call Cftell
       (set_file (reposition (Z.to_nat (base + offset)) (file (scroll m)))
          (log_call (Cfseek offset whence) m))).
Proof.
  intros Hcall Hopen Hscript offset whence Hbase Htarget.
  rewrite (seek_func_run args o w m Hcall). fold offset whence.
  assert (Hf := fseek_settled offset whence base m Hopen Hscript Hbase (proj1 Htarget)).
  destruct (sq_scroll_seek_outcome offset whence m) as [[_ Hss]|[Hbad _]];
    [|rewrite Hf in Hbad; discriminate].
  rewrite Hf in Hss. cbn [snd] in Hss. rewrite (bind_return _ _ _ _ _ Hss).
  set (m1 := set_file _ (log_call (Cfseek offset whence) m)).
  assert (Ht : ftell m1 = (Return (base + offset), log_call Cftell m1)).
  { rewrite (ftell_settled m1); try assumption;
      unfold m1; cbn [set_file set_scroll log_call scroll file reposition position];
      rewrite ?Z2Nat.id by lia; [reflexivity | lia]. }
  destruct (sq_scroll_tell_outcome m1) as (p & Hp & Hst).
  rewrite Ht in Hp, Hst. injection Hp as <-. cbn [snd] in Hst.
  destruct (Z.ltb_spec (base + offset) 0); [lia|].
  rewrite (bind_return _ _ _ _ _ Hst). unfold ret.
  rewrite to_long_small by lia. reflexivity.
Qed.

Lemma write_func_settled (args : sq_args) (v : sq_value) (m : machine) :
  call_of args [v] ->
  is_open (file (scroll m)) = true -> script m = [] ->
  let t := sq_value_to_text v in
  let bytes := firstn (Z.to_nat (length t)) (ptr t) in
  0 <= length t <= Z.of_nat (List.length (ptr t)) ->
  write_func args m
  = (Return SQ_NI,
     set_file (overwrite (file (scroll m)) bytes) (log_call (Cfwrite bytes) m)).
Proof.
  intros Hcall Hopen Hscript t bytes Hlen.
  destruct (write_func_outcome args v m Hcall) as (n & Hn & Hwrite).
  fold t bytes in Hn, Hwrite.
  rewrite (fwrite_complete bytes m Hopen Hscript) in Hn, Hwrite.
  injection Hn as <-. cbn [snd] in Hwrite.
  unfold bytes in Hwrite at 1. rewrite firstn_length_exact in Hwrite by exact Hlen.
  rewrite Z.ltb_irrefl in Hwrite. exact Hwrite.
Qed.

Lemma zero_terminated_firstn (T : sq_text) (bytes : list byte) :
  zero_terminated T bytes ->
  firstn (Z.to_nat (length T)) (ptr T) = bytes /\
  0 <= length T <= Z.of_nat (List.length (ptr T)).
Proof.
  intros [Hptr Hlen].
  rewrite Hptr, Hlen, Nat2Z.id, List.firstn_app, List.firstn_all, Nat.sub_diag.
  cbn [firstn]. rewrite List.app_nil_r, List.length_app. cbn [List.length].
  split; [reflexivity | lia].
Qed.

Lemma zero_terminated_unique (t T : sq_text) (bytes : list byte) :
  zero_terminated t bytes -> zero_terminated T bytes -> t = T.
Proof.
  intros [Hp Hl] [HP HL]. destruct t, T. cbn [ptr length] in *. congruence.
Qed.

(** [read] of [N] bytes on a settled stream that holds at least [N] more:
    the text has exactly the next [N] bytes, and the stream is settled
    behind them. *)
Lemma read_func_settled (args : sq_args) (N : Z) (m : machine) :
  records_request sq_text_allocate ->
  call_of args [Numeral N] -> 0 <= N < 2 ^ 32 -> settled m ->
  N <= Z.of_nat (List.length (remaining (file (scroll m)))) ->
  exists t m',
    read_func args m = (Return (Text t), m') /\
    zero_terminated t (firstn (Z.to_nat N) (remaining (file (scroll m)))) /\
    settled m' /\
    contents (file (scroll m')) = contents (file (scroll m)) /\
    position (file (scroll m')) = (position (file (scroll m)) + Z.to_nat N)%nat.
Proof.
  intros Halloc Hcall HN (Hopen & Hscript & Herr) Henough.
  destruct (sq_scroll_read_to_the_end N m HN Hopen Hscript Herr)
    as (m_loop & Hread & Hr & Hs & He).
  rewrite Nat.min_l in Hread, Hr by lia.
  destruct Hr as (Hc & Hp & Ho & _).
  set (got := firstn (Z.to_nat N) (remaining (file (scroll m)))) in *.
  assert (Hgot : List.length got = Z.to_nat N)
    by (unfold got; rewrite List.length_firstn; lia).
  destruct (Halloc N) as [Hal Hcap]; [lia|].
  eexists. exists (log_call Cferror m_loop).
  rewrite (read_func_numeral args N m Hcall HN), (bind_return _ _ _ _ _ Hread).
  split; [reflexivity|].
  split.
  { unfold zero_terminated, with_ptr. cbn [ptr length].
    rewrite <- Hgot, store_terminated by (rewrite Hcap, Hgot; reflexivity).
    split; [reflexivity | lia]. }
  cbn [log_call scroll script]. unfold settled.
  cbn [log_call scroll script]. rewrite Ho. auto.
Qed.

(** *** seek on a settled stream *)

Lemma seek_base_none (f : FILE) (whence : Z) :
  ~ (0 <= whence <= 2) -> seek_base f whence = None.
Proof.
  intros H. unfold seek_base.
  destruct (Z.eqb_spec whence 0); [lia|].
  destruct (Z.eqb_spec whence 1); [lia|].
  destruct (Z.eqb_spec whence 2); [lia | reflexivity].
Qed.

(** On an open stream, in an environment that fails no call, [seek]
    returns the absolute offset it moved to: the offset argument counted
    from 0, from the current position or from the end of the stream for
    whence 0, 1 and 2.  The stream is then at that offset and holds what it
    held; [seek] to offset 0 from the current position is the way to ask
    for the position. *)
Theorem seek_returns_target (args : sq_args) (o w : sq_value) (base : Z) (m : machine) :
  call_of args [o; w] -> settled m ->
  let offset := to_long (sq_value_to_numeral o) in
  let whence := to_int (sq_value_to_numeral w) in
  seek_base (file (scroll m)) whence = Some base ->
  0 <= base + offset < 2 ^ 63 ->
  let m' := snd (seek_func args m) in
  fst (seek_func args m) = Return (Numeral (base + offset)) /\
  Z.of_nat (stream_position m') = base + offset /\
  stream_contents m' = stream_contents m /\
  settled m' /\
  log m' = log m ++ [Cfseek offset whence; Cftell].
Proof.
  intros Hcall (Hopen & Hscript & Herr) offset whence Hbase Htarget m'.
  subst m'. rewrite (seek_func_settled args o w base m Hcall Hopen Hscript Hbase Htarget).
  fold offset whence. unfold stream_position, stream_contents, settled.
  cbn [fst snd log_call set_file set_scroll scroll file script log reposition
       position contents is_open err_ind].
  rewrite Z2Nat.id by lia. rewrite <- List.app_assoc. repeat split; assumption || reflexivity.
Qed.

(** On an open stream, in an environment that fails no call, [seek]
    with a whence that, as the [int] the call converts it to, is none of 0,
    1 and 2, or to an offset before the start of the stream, raises the IO
    error "cannot seek '%d' for '%s'" with that [int] and the file name.
    The stream stays where it was, and the position is not asked for. *)
Theorem seek_out_of_range_raises (args : sq_args) (o w : sq_value) (m : machine) :
  call_of args [o; w] -> settled m ->
  let offset := to_long (sq_value_to_numeral o) in
  let whence := to_int (sq_value_to_numeral w) in
  (~ (0 <= whence <= 2) \/
   exists base, seek_base (file (scroll m)) whence = Some base /\ base + offset < 0) ->
  let m' := snd (seek_func args m) in
  fst (seek_func args m)
  = Throw {| kind := IOError; fmt := "cannot seek '%d' for '%s'";
             fargs := [ArgNum whence; ArgStr (filename (scroll m))] |} /\
  file (scroll m') = file (scroll m) /\
  log m' = log m ++ [Cfseek offset whence].
Proof.
  intros Hcall (Hopen & Hscript & Herr) offset whence Hbad m'.
  assert (Hf : fseek offset whence m
               = (Return (-1), set_errno EINVAL (log_call (Cfseek offset whence) m))).
  { apply fseek_refused; try assumption.
    destruct Hbad as [H|H]; [left; apply seek_base_none, H | right; exact H]. }
  subst m'. rewrite (seek_func_run args o w m Hcall). fold offset whence.
  destruct (sq_scroll_seek_outcome offset whence m) as [[Hok _]|[_ Hss]];
    [rewrite Hf in Hok; discriminate|].
  rewrite (bind_throw _ _ _ _ _ Hss), Hf. auto.
Qed.

(** *** Composing calls *)

Lemma remaining_overwritten (f : FILE) (bs : list byte) (p : nat) :
  p = landing f ->
  firstn (List.length bs)
    (remaining (reposition p (overwrite f bs))) = bs.
Proof.
  intros ->. unfold remaining. cbn [reposition position contents].
  apply overwrite_at.
Qed.

(** Write, seek to where the bytes landed, read. *)
Lemma round_trip_at_landing
  (T : sq_text) (bytes : list byte) (o w : sq_value) (base : Z) (m : machine)
  (wargs sargs rargs : sq_args) :
  records_request sq_text_allocate ->
  sq_value_to_text (Text T) = T ->
  zero_terminated T bytes -> length T < 2 ^ 32 ->
  settled m ->
  call_of wargs [Text T] -> call_of sargs [o; w] ->
  call_of rargs [Numeral (length T)] ->
  let start := Z.of_nat (landing (file (scroll m))) in
  let offset := to_long (sq_value_to_numeral o) in
  let whence := to_int (sq_value_to_numeral w) in
  seek_base (overwrite (file (scroll m)) bytes) whence = Some base ->
  base + offset = start -> start < 2 ^ 63 ->
  exists m1 m2 m3,
    write_func wargs m = (Return SQ_NI, m1) /\
    seek_func sargs m1 = (Return (Numeral start), m2) /\
    read_func rargs m2 = (Return (Text T), m3).
Proof.
  intros Halloc Htext Hzt Hsmall (Hopen & Hscript & Herr) Hw Hs Hr
    start offset whence Hbase Htarget Hfits.
  destruct (zero_terminated_firstn T bytes Hzt) as [Hbytes Hlen].
  assert (Hwrite := write_func_settled wargs (Text T) m Hw Hopen Hscript).
  cbv zeta in Hwrite. rewrite Htext, Hbytes in Hwrite. specialize (Hwrite Hlen).
  destruct (overwrite_flags (file (scroll m)) bytes) as (Ho & He & _).
  set (m1 := set_file (overwrite (file (scroll m)) bytes) (log_call (Cfwrite bytes) m))
    in *.
  assert (Hopen1 : is_open (file (scroll m1)) = true) by (rewrite <- Hopen; exact Ho).
  assert (Hscript1 : script m1 = []) by exact Hscript.
  assert (Hseek := seek_func_settled sargs o w base m1 Hs Hopen1 Hscript1 Hbase).
  fold offset whence in Hseek. rewrite Htarget in Hseek.
  specialize (Hseek (conj (Nat2Z.is_nonneg _) Hfits)).
  unfold start in Hseek at 2. rewrite Nat2Z.id in Hseek. fold start in Hseek.
  set (m2 := log_call Cftell _) in Hseek.
  assert (Hsettled2 : settled m2).
  { unfold settled, m2, m1.
    cbn [log_call set_file set_scroll scroll file script reposition is_open err_ind].
    rewrite Ho, He. auto. }
  assert (Hrem : firstn (List.length bytes) (remaining (file (scroll m2))) = bytes)
    by (apply remaining_overwritten; reflexivity).
  destruct Hzt as [Hptr HlenT].
  assert (Henough : length T <= Z.of_nat (List.length (remaining (file (scroll m2))))).
  { apply (f_equal (@List.length byte)) in Hrem.
    rewrite List.length_firstn in Hrem. lia. }
  destruct (read_func_settled rargs (length T) m2 Halloc Hr) as (t & m3 & Hread & Ht & _);
    [lia | exact Hsettled2 | exact Henough |].
  rewrite HlenT, Nat2Z.id, Hrem in Ht.
  rewrite (zero_terminated_unique t T bytes Ht (conj Hptr HlenT)) in Hread.
  exists m1, m2, m3. auto.
Qed.

(** C3, as the code has it.  The round trip through offset 0 holds where
    the write lands at offset 0: on a handle at position 0 that was not
    opened in an append mode, or on an append-mode handle whose file is
    empty.  There, with the stream open, no error pending and an
    environment that fails no call, and with a host whose allocated texts
    record the requested size in a buffer of one byte more, whose to-text
    conversion of a text is that text and whose to-numeral conversion of 0
    is 0: writing a text [T] of fewer than 2^32 bytes, seeking to offset 0
    from the start and reading [T.length] bytes returns [SQ_NI], then 0,
    then [T] itself, whatever bytes [T] holds, zero bytes included. *)
Theorem write_seek_read_round_trip
  (T : sq_text) (bytes : list byte) (m : machine) (wargs sargs rargs : sq_args) :
  records_request sq_text_allocate ->
  sq_value_to_text (Text T) = T ->
  sq_value_to_numeral (Numeral 0) = 0 ->
  zero_terminated T bytes -> length T < 2 ^ 32 ->
  settled m ->
  (if append (file (scroll m)) then List.length (contents (file (scroll m)))
   else position (file (scroll m))) = 0%nat ->
  call_of wargs [Text T] ->
  call_of sargs [Numeral 0; Numeral 0] ->
  call_of rargs [Numeral (length T)] ->
  exists m1 m2 m3,
    write_func wargs m = (Return SQ_NI, m1) /\
    seek_func sargs m1 = (Return (Numeral 0), m2) /\
    read_func rargs m2 = (Return (Text T), m3).
Proof.
  intros Halloc Htext Hnum Hzt Hsmall Hsettled Hland Hw Hs Hr.
  fold (landing (file (scroll m))) in Hland.
  pose proof (round_trip_at_landing T bytes (Numeral 0) (Numeral 0) 0 m wargs sargs rargs
                Halloc Htext Hzt Hsmall Hsettled Hw Hs Hr) as H.
  cbv zeta in H. rewrite Hnum, Hland in H.
  apply H; reflexivity.
Qed.

(** What was written can be read back from where it was written.  On an
    open stream at any position, with no error pending and an environment
    that fails no call: writing a text [T] of fewer than 2^32 bytes, then
    any [seek] that lands on the offset where the bytes were put (the
    position before the write, or the end of the file as it was for a
    stream opened in an append mode), then reading [T.length] bytes returns
    [SQ_NI], the offset, and [T] itself. *)
Theorem write_seek_back_read_round_trip
  (T : sq_text) (bytes : list byte) (o w : sq_value) (base : Z) (m : machine)
  (wargs sargs rargs : sq_args) :
  records_request sq_text_allocate ->
  sq_value_to_text (Text T) = T ->
  zero_terminated T bytes -> length T < 2 ^ 32 ->
  settled m ->
  call_of wargs [Text T] -> call_of sargs [o; w] ->
  call_of rargs [Numeral (length T)] ->
  let f := file (scroll m) in
  let start :=
    Z.of_nat (if append f then List.length (contents f) else position f) in
  let offset := to_long (sq_value_to_numeral o) in
  let whence := to_int (sq_value_to_numeral w) in
  seek_base (file (scroll (snd (write_func wargs m)))) whence = Some base ->
  base + offset = start -> start < 2 ^ 63 ->
  exists m1 m2 m3,
    write_func wargs m = (Return SQ_NI, m1) /\
    seek_func sargs m1 = (Return (Numeral start), m2) /\
    read_func rargs m2 = (Return (Text T), m3).
Proof.
  intros Halloc Htext Hzt Hsmall Hsettled Hw Hs Hr f start offset whence
    Hbase Htarget Hfits.
  destruct (zero_terminated_firstn T bytes Hzt) as [Hbytes Hlen].
  destruct Hsettled as (Hopen & Hscript & Herr).
  assert (Hwrite := write_func_settled wargs (Text T) m Hw Hopen Hscript).
  cbv zeta in Hwrite. rewrite Htext, Hbytes in Hwrite. specialize (Hwrite Hlen).
  rewrite Hwrite in Hbase. cbn [snd set_file set_scroll scroll file] in Hbase.
  apply (round_trip_at_landing T bytes o w base m wargs sargs rargs); try assumption.
  repeat split; assumption.
Qed.

(** Reads continue where the last one ended.  On an open stream with
    no error pending that holds at least [a + b] more bytes, in an
    environment that fails no call, [read a] followed by [read b] returns
    two texts that together are the next [a + b] bytes of the stream, the
    first of them [a] bytes long. *)
Theorem consecutive_reads_split_the_stream (a b : Z) (m : machine) (r1 r2 : sq_args) :
  records_request sq_text_allocate -> settled m ->
  call_of r1 [Numeral a] -> call_of r2 [Numeral b] ->
  0 <= a < 2 ^ 32 -> 0 <= b < 2 ^ 32 ->
  a + b <= Z.of_nat (List.length (remaining (file (scroll m)))) ->
  exists t1 t2 m1 m2 x y,
    read_func r1 m = (Return (Text t1), m1) /\
    read_func r2 m1 = (Return (Text t2), m2) /\
    zero_terminated t1 x /\ zero_terminated t2 y /\
    length t1 = a /\ length t2 = b /\
    x ++ y = firstn (Z.to_nat (a + b)) (remaining (file (scroll m))) /\
    position (file (scroll m2)) = (position (file (scroll m)) + Z.to_nat (a + b))%nat.
Proof.
  intros Halloc Hsettled H1 H2 Ha Hb Henough.
  destruct (read_func_settled r1 a m Halloc H1 Ha Hsettled)
    as (t1 & m1 & Hr1 & Ht1 & Hs1 & Hc1 & Hp1); [lia|].
  assert (Hrem1 : remaining (file (scroll m1))
                  = skipn (Z.to_nat a) (remaining (file (scroll m)))).
  { unfold remaining. rewrite Hc1, Hp1, List.skipn_skipn. f_equal. lia. }
  destruct (read_func_settled r2 b m1 Halloc H2 Hb Hs1)
    as (t2 & m2 & Hr2 & Ht2 & _ & _ & Hp2).
  { rewrite Hrem1, List.length_skipn. lia. }
  rewrite Hrem1 in Ht2.
  exists t1, t2, m1, m2. eexists. eexists.
  refine (conj Hr1 (conj Hr2 (conj Ht1 (conj Ht2 _)))).
  destruct Ht1 as [_ Hl1]. destruct Ht2 as [_ Hl2].
  rewrite List.length_firstn in Hl1. rewrite List.length_firstn, List.length_skipn in Hl2.
  split; [lia|]. split; [lia|]. split.
  - rewrite Z2Nat.inj_add by lia. apply firstn_then_more.
  - rewrite Hp2, Hp1. lia.
Qed.

Lemma landing_deposit (f : FILE) (a : list byte) :
  landing (deposit f a) = (landing f + List.length a)%nat.
Proof.
  unfold landing at 1. unfold deposit. cbn [append contents position].
  destruct (append f) eqn:Happ; [|reflexivity].
  assert (Hland : landing f = List.length (contents f))
    by (unfold landing; rewrite Happ; reflexivity).
  rewrite Hland, Nat.sub_diag. cbn [repeat].
  rewrite List.app_nil_r, List.firstn_all, List.skipn_all2 by lia.
  rewrite !List.length_app. cbn [List.length]. lia.
Qed.

Lemma deposit_deposit (f : FILE) (a b : list byte) :
  deposit (deposit f a) b = deposit f (a ++ b).
Proof.
  unfold deposit at 1. rewrite landing_deposit.
  unfold deposit. cbn [contents position eof_ind err_ind is_open append].
  set (p := landing f).
  set (pre := firstn p (contents f ++ repeat x00 (p - List.length (contents f)))).
  assert (Hpre : List.length pre = p).
  { unfold pre. rewrite List.length_firstn, List.length_app, List.repeat_length. lia. }
  set (rest := skipn (p + List.length a) (contents f)).
  replace (p + List.length a - List.length (pre ++ a ++ rest))%nat with 0%nat
    by (rewrite !List.length_app, Hpre; lia).
  cbn [repeat]. rewrite List.app_nil_r.
  rewrite (List.app_assoc pre a rest).
  assert (Hpa : List.length (pre ++ a) = (p + List.length a)%nat)
    by (rewrite List.length_app, Hpre; reflexivity).
  rewrite List.firstn_app, List.skipn_app, Hpa.
  rewrite List.firstn_all2 by lia.
  rewrite List.skipn_all2 by lia.
  replace (p + List.length a - (p + List.length a))%nat with 0%nat by lia.
  replace (p + List.length a + List.length b - (p + List.length a))%nat
    with (List.length b) by lia.
  unfold rest. rewrite List.skipn_skipn. cbn [firstn app].
  rewrite List.app_nil_r, List.length_app, <- !List.app_assoc.
  f_equal; [|lia].
  do 3 f_equal. f_equal. lia.
Qed.

Lemma overwrite_overwrite (f : FILE) (a b : list byte) :
  overwrite (overwrite f a) b = overwrite f (a ++ b).
Proof.
  destruct a as [|x a]; [reflexivity|].
  destruct b as [|y b]; [rewrite List.app_nil_r; reflexivity|].
  rewrite (overwrite_some f (x :: a)), (overwrite_some _ (y :: b)) by congruence.
  rewrite (overwrite_some f ((x :: a) ++ y :: b)) by discriminate.
  apply deposit_deposit.
Qed.

(** Writes continue where the last one ended.  On an open stream, in
    an environment that fails no call, writing a text and then a second one
    leaves the stream (contents, position and indicators) as one write of
    the two texts joined does. *)
Theorem consecutive_writes_concatenate
  (v1 v2 v12 : sq_value) (x y : list byte) (m : machine) (w1 w2 w12 : sq_args) :
  zero_terminated (sq_value_to_text v1) x ->
  zero_terminated (sq_value_to_text v2) y ->
  zero_terminated (sq_value_to_text v12) (x ++ y) ->
  is_open (file (scroll m)) = true -> script m = [] ->
  call_of w1 [v1] -> call_of w2 [v2] -> call_of w12 [v12] ->
  exists m1 m2 m12,
    write_func w1 m = (Return SQ_NI, m1) /\
    write_func w2 m1 = (Return SQ_NI, m2) /\
    write_func w12 m = (Return SQ_NI, m12) /\
    file (scroll m2) = file (scroll m12).
Proof.
  intros Hx Hy Hxy Hopen Hscript H1 H2 H12.
  destruct (zero_terminated_firstn _ _ Hx) as [Hbx Hlx].
  destruct (zero_terminated_firstn _ _ Hy) as [Hby Hly].
  destruct (zero_terminated_firstn _ _ Hxy) as [Hbxy Hlxy].
  assert (Hw1 := write_func_settled w1 v1 m H1 Hopen Hscript Hlx).
  assert (Hw12 := write_func_settled w12 v12 m H12 Hopen Hscript Hlxy).
  rewrite Hbx in Hw1. rewrite Hbxy in Hw12.
  set (m1 := set_file (overwrite (file (scroll m)) x) (log_call (Cfwrite x) m)) in *.
  assert (Hopen1 : is_open (file (scroll m1)) = true)
    by (rewrite <- Hopen; apply overwrite_flags).
  assert (Hw2 := write_func_settled w2 v2 m1 H2 Hopen1 Hscript Hly).
  rewrite Hby in Hw2.
  eexists. eexists. eexists.
  refine (conj Hw1 (conj Hw2 (conj Hw12 _))).
  cbn [set_file set_scroll scroll file log_call]. apply overwrite_overwrite.
Qed.

(** [write] of an empty text cannot fail: no count [fwrite] reports
    is below a length of 0, so the call returns [SQ_NI] whatever the
    environment does with the one [fwrite] of no bytes. *)
Theorem write_empty_text_never_raises (args : sq_args) (v : sq_value) (m : machine) :
  call_of args [v] -> is_open (file (scroll m)) = true ->
  length (sq_value_to_text v) = 0 ->
  fst (write_func args m) = Return SQ_NI /\
  log (snd (write_func args m)) = log m ++ [Cfwrite []].
Proof.
  intros Hcall _ Hempty.
  destruct (write_func_outcome args v m Hcall) as (n & Hn & Hwrite).
  rewrite Hempty in Hn, Hwrite. cbn [Z.to_nat firstn] in Hn, Hwrite.
  pose proof (fwrite_at_most [] m n Hn) as Hbound. cbn [List.length Z.of_nat] in Hbound.
  destruct (Z.ltb_spec n 0) as [|_]; [lia|].
  rewrite Hwrite. cbn [fst snd]. split; [reflexivity | apply fwrite_log].
Qed.

(** [read] with the newline text copies the line as a C string: when
    the next line holds a zero byte, the text returned ends before that
    byte, while the stream has moved behind the whole line, so the rest of
    the line is lost to the caller. *)
Theorem read_newline_cuts_at_zero_byte
  (args : sq_args) (t : sq_text) (a b : list byte) (m : machine) :
  call_of args [Text t] -> strcmp_eq (ptr t) [x0a; x00] = true ->
  calm m ->
  line_of (remaining (file (scroll m))) = a ++ x00 :: b -> ~ In x00 a ->
  fst (read_func args m) = Return (Text (sq_text_new a)) /\
  position (file (scroll (snd (read_func args m))))
  = (position (file (scroll m)) + List.length a + 1 + List.length b)%nat.
Proof.
  intros Hcall Hnl Hcalm Hline Hzero.
  assert (Hrem : remaining (file (scroll m)) <> []).
  { intros H. rewrite H in Hline. destruct a; discriminate. }
  destruct (read_newline_returns_line args t m Hcall Hnl Hcalm Hrem) as (Hr & Hp & _).
  rewrite Hline in Hr, Hp. rewrite (strndup_cuts a b Hzero) in Hr.
  split; [exact Hr|]. rewrite Hp, List.length_app. cbn [List.length]. lia.
Qed.

End Scroll.


(** ** The model run on concrete inputs *)

Abbreviation host_read :=
  (read_func Host.text_allocate Host.text_new Host.typename Host.strerror).
Abbreviation host_write := (write_func Host.to_text).
Abbreviation host_seek := (seek_func Host.to_numeral).
Abbreviation host_attr := (sq_scroll_get_attr Host.text_new).
Abbreviation host_init := (sq_scroll_init Host.fopen_empty).
Abbreviation bytes_of := list_byte_of_string.

Lemma call_of_call (rest : list sq_value) :
  call_of (Host.call (Host.receiver :: rest)) rest.
Proof. split; reflexivity. Qed.

Lemma host_records_request : records_request Host.text_allocate.
Proof.
  intros n Hn. unfold Host.text_allocate. simpl.
  rewrite List.repeat_length. auto.
Qed.

Lemma host_text_zero_terminated (p : list byte) :
  zero_terminated (Host.text_new p) p.
Proof. split; reflexivity. Qed.

(** [read(-1)] on a handle with data: the plain error, and the machine as
    it was. *)
Lemma read_negative_numeral_raises_witness :
  -1 < 0 /\
  host_read (Host.call [Host.receiver; Numeral (-1)]) (Host.machine_on (bytes_of "abc") [])
  = (Throw {| kind := PlainError; fmt := "can only read nonnegative amounts";
              fargs := [] |},
     Host.machine_on (bytes_of "abc") []).
Proof.
  split; [lia|].
  apply (read_negative_numeral_raises _ _ _ _ _ (-1)); [apply call_of_call | lia].
Defined.

(** The attributes of a scroll opened as "t.txt" in mode "w+", after a
    write. *)
Lemma get_attr_of_handle_witness :
  let opened := snd (host_init "t.txt" "w+" (Host.machine_on [] [])) in
  let m := snd (host_write (Host.call [Host.receiver; Numeral 42]) opened) in
  host_attr m "filename" = Text (Host.text_new (bytes_of "t.txt")) /\
  host_attr m "mode" = Text (Host.text_new (bytes_of "w+")) /\
  host_attr m "seek"
  = Other (OJourney 1 {| name := "Scroll.seek"; nargs := 3; func := Fseek |}) /\
  host_attr m "size" = SQ_UNDEFINED.
Proof.
  intros opened m.
  assert (Hinit : opened_as "t.txt" "w+" opened).
  { apply (sq_scroll_init_opened Host.fopen_empty _ _ (Host.machine_on [] [])).
    reflexivity. }
  assert (Hopened : opened_as "t.txt" "w+" m).
  { apply (methods_keep_handle Host.text_allocate Host.text_new Host.to_text
             Host.to_numeral Host.typename Host.strerror _ _ opened
             (Host.call [Host.receiver; Numeral 42]) Hinit). }
  split; [apply (get_attr_of_handle _ _ _ "filename" _ Hopened); reflexivity|].
  split; [apply (get_attr_of_handle _ _ _ "mode" _ Hopened); reflexivity|].
  split; [apply (get_attr_of_handle _ _ _ "seek" _ Hopened); reflexivity|].
  apply (get_attr_of_handle _ _ _ "size" _ Hopened).
  simpl. intros H. repeat destruct H as [H|H]; try discriminate H. exact H.
Defined.

(** C4: "path" is not a name [sq_scroll_get_attr] knows; asked for it, a
    scroll opened as "t.txt" answers [SQ_UNDEFINED] instead of a text of
    its file name. *)
Lemma get_attr_path_is_undefined :
  let m := snd (host_init "t.txt" "w+" (Host.machine_on [] [])) in
  fst (host_init "t.txt" "w+" (Host.machine_on [] [])) = Return tt /\
  filename (scroll m) = "t.txt" /\
  host_attr m "path" = SQ_UNDEFINED /\
  host_attr m "path" <> Text (Host.text_new (bytes_of "t.txt")).
Proof. repeat split. discriminate. Qed.

(** There is no branch for "close" either, although [sq_scroll_init] makes
    a journey for it. *)
Example get_attr_close_is_undefined :
  let m := snd (host_init "t.txt" "w+" (Host.machine_on [] [])) in
  host_attr m "close" = SQ_UNDEFINED /\
  close_journey m
  = Other (OJourney 1 {| name := "Scroll.close"; nargs := 1; func := Fclose |}).
Proof. split; reflexivity. Qed.

(** [read] with [SQ_NI] on a stream that holds "abc". *)
Lemma read_ni_is_a_stub_witness :
  host_read (Host.call [Host.receiver; SQ_NI]) (Host.machine_on (bytes_of "abc") [])
  = (Die "todo: sq_scroll_read_all", Host.machine_on (bytes_of "abc") []).
Proof. apply read_ni_is_a_stub, call_of_call. Defined.

(** C6: on an open stream that holds "abc", [read] with [SQ_NI] returns no
    text: the process ends, and the three bytes are still unread. *)
Lemma read_ni_returns_no_text :
  let m := Host.machine_on (bytes_of "abc") [] in
  let r := host_read (Host.call [Host.receiver; SQ_NI]) m in
  is_open (file (scroll m)) = true /\
  fst r = Die "todo: sq_scroll_read_all" /\
  remaining (file (scroll (snd r))) = bytes_of "abc" /\
  log (snd r) = [] /\
  ~ (exists t, fst r = Return (Text t)).
Proof.
  repeat split. intros [t H]. discriminate H.
Qed.

(** C2: a scroll is closed through its method, successfully.  A second
    [close], [sq_scroll_deallocate], a [write] and a [read] on the closed
    handle each go to stdio all the same: [fclose], [fwrite] and [fread]
    are called on the closed stream. *)
Lemma closed_handle_reaches_stdio :
  let m0 := Host.machine_on (bytes_of "abc") [] in
  let closing := close_func (Host.call [Host.receiver]) m0 in
  let m1 := snd closing in
  fst closing = Return SQ_NI /\
  is_open (file (scroll m1)) = false /\
  log m1 = [Cfclose] /\
  log (snd (close_func (Host.call [Host.receiver]) m1)) = [Cfclose; Cfclose] /\
  log (snd (sq_scroll_deallocate m1)) = [Cfclose; Cfclose] /\
  log (snd (host_write (Host.call [Host.receiver; Text (Host.text_new (bytes_of "x"))]) m1))
  = [Cfclose; Cfwrite (bytes_of "x")] /\
  log (snd (host_read (Host.call [Host.receiver; Numeral 1]) m1))
  = [Cfclose; Cfread 1; Cferror].
Proof. repeat split. Qed.

(** A write the environment cuts short after two of three bytes, and the
    same write carried out in full. *)
Lemma write_func_writes_text_witness :
  let t := Host.text_new (bytes_of "hey") in
  let args := Host.call [Host.receiver; Text t] in
  let short := Host.machine_on (bytes_of "abcdef") [Short 2] in
  let full := Host.machine_on (bytes_of "abcdef") [] in
  (fst (host_write args short)
   = Throw {| kind := IOError; fmt := "cannot write %zu bytes to '%s'";
              fargs := [ArgNum 3; ArgStr "t.txt"] |} /\
   log (snd (host_write args short)) = [Cfwrite (bytes_of "hey")]) /\
  (fst (host_write args full) = Return SQ_NI /\
   contents (file (scroll (snd (host_write args full)))) = bytes_of "heydef" /\
   position (file (scroll (snd (host_write args full)))) = 3%nat).
Proof.
  intros t args short full. split.
  - destruct (write_func_writes_text Host.to_text args (Text t) t short)
      as (_ & _ & Hlog & n & Hn & _ & _ & Hshort & _);
      [apply call_of_call | reflexivity | simpl; lia | reflexivity |].
    split; [|exact Hlog].
    apply Hshort. vm_compute in Hn. injection Hn as <-. reflexivity.
  - destruct (write_func_writes_text Host.to_text args (Text t) t full)
      as (_ & _ & _ & n & _ & _ & Hall & _ & Hfull);
      [apply call_of_call | reflexivity | simpl; lia | reflexivity |].
    destruct (Hfull (Hall eq_refl)) as (Hret & Hc & Hp & _).
    split; [exact Hret|]. split; [exact Hc | exact Hp].
Defined.

(** The same write carried out in full: the bytes replace the start of the
    stream. *)
Example write_in_full :
  let t := Host.text_new (bytes_of "hey") in
  let m := Host.machine_on (bytes_of "abcdef") [] in
  let r := host_write (Host.call [Host.receiver; Text t]) m in
  fst r = Return SQ_NI /\
  contents (file (scroll (snd r))) = bytes_of "heydef" /\
  position (file (scroll (snd r))) = 3%nat.
Proof. repeat split. Qed.


(** Seeking to offset 2 from the start of a stream that holds "hello". *)
Lemma seek_func_returns_position_witness :
  let m := Host.machine_on (bytes_of "hello") [] in
  let args := Host.call [Host.receiver; Numeral 2; Numeral 0] in
  fst (host_seek args m) = Return (Numeral 2) /\
  position (file (scroll (snd (host_seek args m)))) = 2%nat /\
  log (snd (host_seek args m)) = [Cfseek 2 0; Cftell].
Proof.
  intros m args.
  destruct (seek_func_returns_position Host.to_numeral args (Numeral 2) (Numeral 0) m
              (call_of_call _)) as [_ Hok].
  destruct Hok as [Hlog Hp]; [reflexivity|].
  destruct (Hp 2) as [_ H]; [reflexivity|].
  destruct H as [Hret Hpos]; [lia|].
  split; [exact Hret|]. split; [|exact Hlog].
  apply Nat2Z.inj. symmetry. exact Hpos.
Defined.

(** A seek the environment fails, and a seek before the start. *)
Example seek_failures :
  fst (host_seek (Host.call [Host.receiver; Numeral 2; Numeral 0])
         (Host.machine_on (bytes_of "hello") [Fault 0 5]))
  = Throw {| kind := IOError; fmt := "cannot seek '%d' for '%s'";
             fargs := [ArgNum 0; ArgStr "t.txt"] |} /\
  fst (host_seek (Host.call [Host.receiver; Numeral (-1); Numeral 0])
         (Host.machine_on (bytes_of "hello") []))
  = Throw {| kind := IOError; fmt := "cannot seek '%d' for '%s'";
             fargs := [ArgNum 0; ArgStr "t.txt"] |} /\
  fst (host_seek (Host.call [Host.receiver; Numeral 2; Numeral 0])
         (Host.machine_on (bytes_of "hello") [Complete; Fault 0 5]))
  = Throw {| kind := IOError; fmt := "cannot get offset for '%s'";
             fargs := [ArgStr "t.txt"] |}.
Proof. repeat split. Qed.

(** The whence reaches [fseek] as an [int]: 2^32 + 2 is whence 2. *)
Example seek_whence_is_an_int :
  fst (host_seek (Host.call [Host.receiver; Numeral (-1); Numeral (2 ^ 32 + 2)])
         (Host.machine_on (bytes_of "abcdef") []))
  = Return (Numeral 5).
Proof. reflexivity. Qed.

(** The round trip of a text with a zero byte in the middle. *)
Lemma write_seek_read_round_trip_witness :
  let T := Host.text_new ["a"%byte; x00; "b"%byte] in
  let m := Host.machine_on [] [] in
  exists m1 m2 m3,
    host_write (Host.call [Host.receiver; Text T]) m = (Return SQ_NI, m1) /\
    host_seek (Host.call [Host.receiver; Numeral 0; Numeral 0]) m1
    = (Return (Numeral 0), m2) /\
    host_read (Host.call [Host.receiver; Numeral (length T)]) m2 = (Return (Text T), m3).
Proof.
  intros T m.
  apply (write_seek_read_round_trip Host.text_allocate Host.text_new Host.to_text
           Host.to_numeral Host.typename Host.strerror T ["a"%byte; x00; "b"%byte] m).
  - apply host_records_request.
  - reflexivity.
  - reflexivity.
  - apply host_text_zero_terminated.
  - vm_compute. reflexivity.
  - repeat split; reflexivity.
  - reflexivity.
  - apply call_of_call.
  - apply call_of_call.
  - apply call_of_call.
Defined.

(** The same three calls where the write does not land at offset 0 return
    other bytes than were written: on a handle opened in mode "a+" on a
    file holding "abc", and on a handle in mode "w+" that has written "abc"
    before.  Both read back "ab" for the "XY" they wrote. *)
Lemma write_seek_start_read_returns_old_bytes :
  let T := Host.text_new (bytes_of "XY") in
  let three m :=
    let r1 := host_write (Host.call [Host.receiver; Text T]) m in
    let r2 := host_seek (Host.call [Host.receiver; Numeral 0; Numeral 0]) (snd r1) in
    let r3 := host_read (Host.call [Host.receiver; Numeral (length T)]) (snd r2) in
    (fst r1, fst r2, fst r3) in
  let appending := Host.machine_appending (bytes_of "abc") [] in
  let used :=
    snd (host_write (Host.call [Host.receiver; Text (Host.text_new (bytes_of "abc"))])
           (Host.machine_on [] [])) in
  settled appending /\ settled used /\
  three appending
  = (Return SQ_NI, Return (Numeral 0), Return (Text (Host.text_new (bytes_of "ab")))) /\
  three used
  = (Return SQ_NI, Return (Numeral 0), Return (Text (Host.text_new (bytes_of "ab")))) /\
  Host.text_new (bytes_of "ab") <> T.
Proof.
  intros T three appending used.
  split; [repeat split|]. split; [repeat split|].
  split; [reflexivity|]. split; [reflexivity|]. discriminate.
Defined.

(** A write on a handle opened in mode "a+", at position 0 of a file
    holding "abc": the bytes go to the end of the file, not to the current
    position. *)
Lemma append_write_lands_at_the_end :
  let m := Host.machine_appending (bytes_of "abc") [] in
  let args := Host.call [Host.receiver; Text (Host.text_new (bytes_of "XY"))] in
  let f := file (scroll m) in
  let f' := file (scroll (snd (host_write args m))) in
  is_open f = true /\ position f = 0%nat /\
  fst (host_write args m) = Return SQ_NI /\
  contents f' = bytes_of "abcXY" /\
  firstn 2 (skipn (position f) (contents f')) <> bytes_of "XY".
Proof.
  intros m args f f'. repeat split. discriminate.
Defined.

(** [read] with the newline text on a stream that holds nothing. *)
Lemma read_newline_raises_plain_error_witness :
  let m := Host.machine_on [] [] in
  let args := Host.call [Host.receiver; Text (Host.text_new [x0a])] in
  fst (host_read args m)
  = Throw {| kind := PlainError; fmt := "Undefined error: 0"; fargs := [] |} /\
  log (snd (host_read args m)) = [Cfgetln].
Proof.
  intros m args.
  apply (read_newline_raises_plain_error Host.text_allocate Host.text_new Host.typename
           Host.strerror args (Host.text_new [x0a]) m);
    [apply call_of_call | reflexivity | reflexivity | reflexivity].
Defined.

(** [read] with the newline text where there are lines: the first call
    returns "ab" with its newline, the second the unterminated "cd". *)
Example read_two_lines :
  let m := Host.machine_on ("a"%byte :: "b"%byte :: x0a :: bytes_of "cd") [] in
  let args := Host.call [Host.receiver; Text (Host.text_new [x0a])] in
  let first := host_read args m in
  let second := host_read args (snd first) in
  fst first = Return (Text (Host.text_new ["a"%byte; "b"%byte; x0a])) /\
  fst second = Return (Text (Host.text_new (bytes_of "cd"))).
Proof. repeat split. Qed.

(** A line with a zero byte in it comes back cut at that byte, although the
    stream moved past the whole line. *)
Example read_line_cut_at_zero :
  let m := Host.machine_on ["a"%byte; x00; "b"%byte; x0a; "c"%byte] [] in
  let r := host_read (Host.call [Host.receiver; Text (Host.text_new [x0a])]) m in
  fst r = Return (Text (Host.text_new (bytes_of "a"))) /\
  position (file (scroll (snd r))) = 4%nat.
Proof. repeat split. Qed.

(** Reading 5 bytes where 3 are left, with the host's allocator: the text
    says 5, the buffer ends after "abc". *)
Example read_past_the_end :
  let m := Host.machine_on (bytes_of "abc") [] in
  let r := host_read (Host.call [Host.receiver; Numeral 5]) m in
  fst r = Return (Text {| ptr := bytes_of "abc" ++ [x00; x00; x00]; length := 5 |}) /\
  position (file (scroll (snd r))) = 3%nat /\
  log (snd r) = [Cfread 5; Cfread 2; Cferror].
Proof. repeat split. Qed.

(** Reads the environment delivers in pieces are put together; a read it
    fails raises, and the bytes obtained before are dropped. *)
Example read_in_pieces :
  fst (host_read (Host.call [Host.receiver; Numeral 3])
         (Host.machine_on (bytes_of "abcdef") [Short 1; Short 1; Short 1]))
  = Return (Text (Host.text_new (bytes_of "abc"))) /\
  fst (host_read (Host.call [Host.receiver; Numeral 3])
         (Host.machine_on (bytes_of "abcdef") [Short 1; Fault 1 5]))
  = Throw {| kind := IOError; fmt := "unable to read %zu bytes from '%s'";
             fargs := [ArgNum 3; ArgStr "t.txt"] |}.
Proof. repeat split. Qed.

(** Three bytes asked for, delivered one at a time. *)
Lemma read_numeral_accumulates_witness :
  let m := Host.machine_on (bytes_of "abcdef") [Short 1; Short 1; Short 1] in
  let args := Host.call [Host.receiver; Numeral 3] in
  exists (k : nat) (m_last m_loop : machine),
    Z.of_nat k <= 3 /\
    reads k m m_loop /\
    fread (3 - Z.of_nat k) m_last = (Return [], m_loop) /\
    (exists counts, log m_loop = log m ++ Cfread 3 :: map Cfread counts) /\
    host_read args m
    = (if err_ind (file (scroll m_loop))
       then Throw {| kind := IOError; fmt := "unable to read %zu bytes from '%s'";
                     fargs := [ArgNum 3; ArgStr (filename (scroll m))] |}
       else Return (Text (with_ptr (Host.text_allocate 3)
                            (store (store (ptr (Host.text_allocate 3)) 0
                                      (firstn k (remaining (file (scroll m)))))
                               (Z.of_nat k) [x00]))),
       log_call Cferror m_loop).
Proof.
  intros m args.
  apply (read_numeral_accumulates Host.text_allocate Host.text_new Host.typename
           Host.strerror args 3 m); [apply call_of_call | lia].
Defined.

(** Five bytes asked for where three are left. *)
Lemma read_numeral_short_stream_succeeds_witness :
  let m := Host.machine_on (bytes_of "abc") [] in
  let args := Host.call [Host.receiver; Numeral 5] in
  exists p m',
    host_read args m = (Return (Text (with_ptr (Host.text_allocate 5) p)), m') /\
    p = store (store (ptr (Host.text_allocate 5)) 0 (bytes_of "abc")) 3 [x00] /\
    position (file (scroll m')) = 3%nat.
Proof.
  intros m args.
  apply (read_numeral_short_stream_succeeds Host.text_allocate Host.text_new
           Host.typename Host.strerror args 5 m);
    [apply call_of_call | lia | reflexivity | reflexivity | reflexivity].
Defined.

(** The first line of "ab", newline, "cd". *)
Lemma read_newline_returns_whole_line_witness :
  let m := Host.machine_on ("a"%byte :: "b"%byte :: x0a :: bytes_of "cd") [] in
  let args := Host.call [Host.receiver; Text (Host.text_new [x0a])] in
  let line := ["a"%byte; "b"%byte; x0a] in
  fst (host_read args m) = Return (Text (Host.text_new line)) /\
  position (file (scroll (snd (host_read args m)))) = 3%nat /\
  (exists rest, remaining (file (scroll m)) = line ++ rest) /\
  ((exists body, line = body ++ [x0a] /\ ~ In x0a body) \/
   (line = remaining (file (scroll m)) /\ ~ In x0a line)).
Proof.
  intros m args line.
  apply (read_newline_returns_whole_line Host.text_allocate Host.text_new Host.typename
           Host.strerror args (Host.text_new [x0a]) m).
  - apply call_of_call.
  - reflexivity.
  - split; reflexivity.
  - discriminate.
  - simpl. intros H. repeat destruct H as [H|H]; try discriminate H. exact H.
Defined.

(** Opening "missing.txt" where the file system has no such file, into a
    scroll that held a stream. *)
Lemma open_failure_raises_io_error_witness :
  let m := Host.machine_on (bytes_of "abc") [] in
  let r := sq_scroll_init (fun _ _ => None) "missing.txt" "r" m in
  r = (Throw {| kind := IOError; fmt := "cannot open file '%s'";
                fargs := [ArgStr "missing.txt"] |},
       set_file null_file (log_call (Cfopen "missing.txt" "r") m)) /\
  file (scroll (snd r)) = null_file /\
  names_and_journeys (snd r) = names_and_journeys m.
Proof. intros m r. apply open_failure_raises_io_error. reflexivity. Defined.

(** [read] with [SQ_UNDEFINED]. *)
Lemma read_func_other_kind_witness :
  host_read (Host.call [Host.receiver; SQ_UNDEFINED]) (Host.machine_on (bytes_of "abc") [])
  = (Throw {| kind := PlainError; fmt := "invalid read arugment kind '%s'";
              fargs := [ArgStr "other"] |},
     Host.machine_on (bytes_of "abc") []).
Proof.
  apply (read_func_other_kind Host.text_allocate Host.text_new Host.typename
           Host.strerror _ SQ_UNDEFINED);
    [apply call_of_call | discriminate | discriminate | discriminate].
Defined.

(** [read] with the text "x", and with a text of three bytes whose buffer
    starts with a newline and a zero byte. *)
Lemma read_func_other_text_witness :
  let m := Host.machine_on (bytes_of "abc") [] in
  let long_newline := {| ptr := [x0a; x00; "x"%byte; x00]; length := 3 |} in
  host_read (Host.call [Host.receiver; Text (Host.text_new (bytes_of "x"))]) m
  = (Die "todo: non-newline gets", m) /\
  host_read (Host.call [Host.receiver; Text long_newline]) m
  <> (Die "todo: non-newline gets", m).
Proof.
  intros m long_newline. split.
  - apply (read_func_other_text Host.text_allocate Host.text_new Host.typename
             Host.strerror _ (Host.text_new (bytes_of "x")) m (call_of_call _)).
    discriminate.
  - intros Hdie.
    apply (read_func_other_text Host.text_allocate Host.text_new Host.typename
             Host.strerror _ long_newline m (call_of_call _)) in Hdie.
    apply Hdie. reflexivity.
Defined.

(** [read] called with the receiver alone. *)
Lemma read_func_arity_witness :
  host_read (Host.call [Host.receiver]) (Host.machine_on [] [])
  = (AssertFail "args.pargc == 2", Host.machine_on [] []).
Proof.
  apply (read_func_arity Host.text_allocate Host.text_new Host.typename Host.strerror).
  simpl. lia.
Defined.

(** Closing an open scroll. *)
Lemma close_func_closes_witness :
  let m := Host.machine_on (bytes_of "abc") [] in
  let args := Host.call [Host.receiver] in
  fst (close_func args m) = Return SQ_NI /\
  is_open (file (scroll (snd (close_func args m)))) = false /\
  log (snd (close_func args m)) = log m ++ [Cfclose].
Proof.
  intros m args. apply close_func_closes; [apply call_of_call | split; reflexivity].
Defined.

(** A request of 2^40 bytes on a stream of six: the loop still ends. *)
Lemma sq_scroll_read_returns_witness :
  let m := Host.machine_on (bytes_of "abcdef") [] in
  (exists t m', sq_scroll_read Host.text_allocate (2 ^ 40) m = (Return t, m') /\
                length t = length (Host.text_allocate (2 ^ 40))) \/
  (exists m', sq_scroll_read Host.text_allocate (2 ^ 40) m
              = (Throw {| kind := IOError; fmt := "unable to read %zu bytes from '%s'";
                          fargs := [ArgNum (2 ^ 40); ArgStr (filename (scroll m'))] |},
                 m')).
Proof.
  intros m. apply sq_scroll_read_returns. lia.
Defined.

(** ** Runs of calls on concrete inputs *)

Abbreviation host_native :=
  (native_func Host.text_allocate Host.text_new Host.to_text Host.to_numeral
     Host.typename Host.strerror).
Abbreviation host_run :=
  (run_calls Host.text_allocate Host.text_new Host.to_text Host.to_numeral
     Host.typename Host.strerror).

(** A read, a seek and a close leave "abcdef" in the stream. *)
Lemma only_write_changes_contents_witness :
  let m := Host.machine_on (bytes_of "abcdef") [] in
  let calls := [(Fread, Host.call [Host.receiver; Numeral 2]);
                (Fseek, Host.call [Host.receiver; Numeral 1; Numeral 0]);
                (Fclose, Host.call [Host.receiver])] in
  stream_contents (host_run calls m) = stream_contents m.
Proof.
  intros m calls.
  apply (only_write_changes_contents Host.text_allocate Host.text_new Host.to_text
           Host.to_numeral Host.typename Host.strerror calls m).
  intros f args Hin. simpl in Hin.
  destruct Hin as [H|[H|[H|[]]]]; injection H as <- _; discriminate.
Defined.

(** A write, a read and a seek that is refused leave the stream open. *)
Lemma only_close_closes_witness :
  let m := Host.machine_on (bytes_of "abcdef") [] in
  let calls := [(Fwrite, Host.call [Host.receiver; Text (Host.text_new (bytes_of "xy"))]);
                (Fread, Host.call [Host.receiver; Numeral 1]);
                (Fseek, Host.call [Host.receiver; Numeral (-9); Numeral 0])] in
  stream_is_open (host_run calls m) = stream_is_open m.
Proof.
  intros m calls.
  apply (only_close_closes Host.text_allocate Host.text_new Host.to_text
           Host.to_numeral Host.typename Host.strerror calls m).
  intros f args Hin. simpl in Hin.
  destruct Hin as [H|[H|[H|[]]]]; injection H as <- _; discriminate.
Defined.

(** The seek journey declares three arguments; a call with two fails the
    assertion. *)
Lemma journeys_assert_their_arity_witness :
  let m := Host.machine_on [] [] in
  let j := {| name := "Scroll.seek"; nargs := 3; func := Fseek |} in
  let args := Host.call [Host.receiver; Numeral 0] in
  (exists what, fst (host_native (func j) args m) = AssertFail what)
  <-> pargc args <> nargs j.
Proof.
  intros m j args.
  apply (journeys_assert_their_arity Host.text_allocate Host.text_new Host.to_text
           Host.to_numeral Host.typename Host.strerror "t.txt" "w+" m j args m).
  - reflexivity.
  - simpl. right. right. left. reflexivity.
  - reflexivity.
  - reflexivity.
Defined.

(** After a write the OS failed, a seek to the start and a read of two of
    the six bytes in the stream: the read raises. *)
Lemma read_error_is_sticky_witness :
  let m := snd (host_write (Host.call [Host.receiver; Text (Host.text_new (bytes_of "xyz"))])
                  (Host.machine_on (bytes_of "abcdef") [Fault 1 5])) in
  let calls := [(Fseek, Host.call [Host.receiver; Numeral 0; Numeral 0])] in
  let args := Host.call [Host.receiver; Numeral 2] in
  exists m',
    host_read args (host_run calls m)
    = (Throw {| kind := IOError; fmt := "unable to read %zu bytes from '%s'";
                fargs := [ArgNum (to_size_t 2); ArgStr (filename (scroll m))] |}, m').
Proof.
  intros m calls args.
  apply (read_error_is_sticky Host.text_allocate Host.text_new Host.to_text
           Host.to_numeral Host.typename Host.strerror calls args 2 m).
  - reflexivity.
  - apply call_of_call.
  - lia.
Defined.

(** The OS fails the first read after two bytes. *)
Lemma read_os_failure_raises_witness :
  let m := Host.machine_on (bytes_of "abcdef") [Fault 2 5] in
  let args := Host.call [Host.receiver; Numeral 4] in
  exists m',
    host_read args m
    = (Throw {| kind := IOError; fmt := "unable to read %zu bytes from '%s'";
                fargs := [ArgNum (to_size_t 4); ArgStr (filename (scroll m))] |}, m') /\
    stream_error m' = true.
Proof.
  intros m args.
  apply (read_os_failure_raises Host.text_allocate Host.text_new Host.typename
           Host.strerror args 4 2%nat 5 [] m).
  - apply call_of_call.
  - lia.
  - reflexivity.
  - reflexivity.
Defined.

(** A seek that was refused left [EINVAL] in [errno]; the read of a line at
    the end of the empty stream reports it. *)
Lemma read_newline_at_end_uses_stale_errno_witness :
  let m := snd (host_seek (Host.call [Host.receiver; Numeral (-1); Numeral 0])
                  (Host.machine_on [] [])) in
  let args := Host.call [Host.receiver; Text (Host.text_new [x0a])] in
  fst (host_read args m)
  = Throw {| kind := PlainError; fmt := Host.strerror (errno m); fargs := [] |} /\
  errno (snd (host_read args m)) = errno m.
Proof.
  intros m args.
  apply (read_newline_at_end_uses_stale_errno Host.text_allocate Host.text_new
           Host.typename Host.strerror args (Host.text_new [x0a]) m).
  - apply call_of_call.
  - reflexivity.
  - split; reflexivity.
  - reflexivity.
Defined.

(** The OS fails the line read with error 5. *)
Lemma read_newline_os_failure_witness :
  let m := Host.machine_on (bytes_of "abc") [Fault 0 5] in
  let args := Host.call [Host.receiver; Text (Host.text_new [x0a])] in
  fst (host_read args m)
  = Throw {| kind := PlainError; fmt := Host.strerror 5; fargs := [] |} /\
  stream_error (snd (host_read args m)) = true.
Proof.
  intros m args.
  apply (read_newline_os_failure Host.text_allocate Host.text_new Host.typename
           Host.strerror args (Host.text_new [x0a]) 0%nat 5 [] m).
  - apply call_of_call.
  - reflexivity.
  - reflexivity.
  - reflexivity.
Defined.

(** A scroll opened as "notes.txt" in mode "r+". *)
Lemma opened_names_persist_witness :
  let m := Host.machine_on [] [] in
  exists m',
    host_init "notes.txt" "r+" m = (Return tt, m') /\
    file (scroll m') = Host.stream [] /\
    log m' = log m ++ [Cfopen "notes.txt" "r+"] /\
    forall calls,
      let m'' := host_run calls m' in
      host_attr m'' "filename" = Text (Host.text_new (strdup "notes.txt")) /\
      host_attr m'' "mode" = Text (Host.text_new (strdup "r+")) /\
      sq_scroll_dump (scroll m'')
      = ("Scroll(%s, mode=%s)", [ArgStr "notes.txt"; ArgStr "r+"]).
Proof.
  intros m.
  apply (opened_names_persist Host.text_allocate Host.text_new Host.to_text
           Host.to_numeral Host.typename Host.strerror Host.fopen_empty
           "notes.txt" "r+" (Host.stream []) m).
  reflexivity.
Defined.

(** [seek(-2, 2)] on a stream of six bytes. *)
Lemma seek_returns_target_witness :
  let m := Host.machine_on (bytes_of "abcdef") [] in
  let args := Host.call [Host.receiver; Numeral (-2); Numeral 2] in
  let m' := snd (host_seek args m) in
  fst (host_seek args m) = Return (Numeral (6 + -2)) /\
  Z.of_nat (stream_position m') = 6 + -2 /\
  stream_contents m' = stream_contents m /\
  settled m' /\
  log m' = log m ++ [Cfseek (-2) 2; Cftell].
Proof.
  intros m args.
  apply (seek_returns_target Host.to_numeral args (Numeral (-2)) (Numeral 2) 6 m).
  - apply call_of_call.
  - repeat split; reflexivity.
  - reflexivity.
  - vm_compute. split; [discriminate | reflexivity].
Defined.

(** [seek(-1, 0)]: before the start of the stream. *)
Lemma seek_out_of_range_raises_witness :
  let m := Host.machine_on (bytes_of "abc") [] in
  let args := Host.call [Host.receiver; Numeral (-1); Numeral 0] in
  let m' := snd (host_seek args m) in
  fst (host_seek args m)
  = Throw {| kind := IOError; fmt := "cannot seek '%d' for '%s'";
             fargs := [ArgNum 0; ArgStr "t.txt"] |} /\
  file (scroll m') = file (scroll m) /\
  log m' = log m ++ [Cfseek (-1) 0].
Proof.
  intros m args.
  apply (seek_out_of_range_raises Host.to_numeral args (Numeral (-1)) (Numeral 0) m).
  - apply call_of_call.
  - repeat split; reflexivity.
  - right. exists 0. split; [reflexivity | vm_compute; reflexivity].
Defined.

(** At offset 3 of "abcdef": write "XY", seek two bytes back, read two;
    and in mode "a+" on "abc": write "XY", seek to two bytes before the
    end, read two. *)
Lemma write_seek_back_read_round_trip_witness :
  let T := Host.text_new (bytes_of "XY") in
  let at_three := snd (host_seek (Host.call [Host.receiver; Numeral 3; Numeral 0])
                         (Host.machine_on (bytes_of "abcdef") [])) in
  let appending := Host.machine_appending (bytes_of "abc") [] in
  (exists m1 m2 m3,
     host_write (Host.call [Host.receiver; Text T]) at_three = (Return SQ_NI, m1) /\
     host_seek (Host.call [Host.receiver; Numeral (-2); Numeral 1]) m1
     = (Return (Numeral 3), m2) /\
     host_read (Host.call [Host.receiver; Numeral (length T)]) m2
     = (Return (Text T), m3)) /\
  (exists m1 m2 m3,
     host_write (Host.call [Host.receiver; Text T]) appending = (Return SQ_NI, m1) /\
     host_seek (Host.call [Host.receiver; Numeral (-2); Numeral 2]) m1
     = (Return (Numeral 3), m2) /\
     host_read (Host.call [Host.receiver; Numeral (length T)]) m2
     = (Return (Text T), m3)).
Proof.
  intros T at_three appending. split.
  - apply (write_seek_back_read_round_trip Host.text_allocate Host.text_new Host.to_text
             Host.to_numeral Host.typename Host.strerror T (bytes_of "XY")
             (Numeral (-2)) (Numeral 1) 5 at_three).
    + apply host_records_request.
    + reflexivity.
    + apply host_text_zero_terminated.
    + vm_compute. reflexivity.
    + repeat split; reflexivity.
    + apply call_of_call.
    + apply call_of_call.
    + apply call_of_call.
    + reflexivity.
    + vm_compute. reflexivity.
    + vm_compute. reflexivity.
  - apply (write_seek_back_read_round_trip Host.text_allocate Host.text_new Host.to_text
             Host.to_numeral Host.typename Host.strerror T (bytes_of "XY")
             (Numeral (-2)) (Numeral 2) 5 appending).
    + apply host_records_request.
    + reflexivity.
    + apply host_text_zero_terminated.
    + vm_compute. reflexivity.
    + repeat split; reflexivity.
    + apply call_of_call.
    + apply call_of_call.
    + apply call_of_call.
    + reflexivity.
    + vm_compute. reflexivity.
    + vm_compute. reflexivity.
Defined.

(** [read 2] then [read 3] on "abcdef". *)
Lemma consecutive_reads_split_the_stream_witness :
  let m := Host.machine_on (bytes_of "abcdef") [] in
  let r1 := Host.call [Host.receiver; Numeral 2] in
  let r2 := Host.call [Host.receiver; Numeral 3] in
  exists t1 t2 m1 m2 x y,
    host_read r1 m = (Return (Text t1), m1) /\
    host_read r2 m1 = (Return (Text t2), m2) /\
    zero_terminated t1 x /\ zero_terminated t2 y /\
    length t1 = 2 /\ length t2 = 3 /\
    x ++ y = firstn (Z.to_nat (2 + 3)) (remaining (file (scroll m))) /\
    position (file (scroll m2)) = (position (file (scroll m)) + Z.to_nat (2 + 3))%nat.
Proof.
  intros m r1 r2.
  apply (consecutive_reads_split_the_stream Host.text_allocate Host.text_new
           Host.typename Host.strerror 2 3 m r1 r2).
  - apply host_records_request.
  - repeat split; reflexivity.
  - apply call_of_call.
  - apply call_of_call.
  - lia.
  - lia.
  - vm_compute. discriminate.
Defined.

(** "ab" then "cd" over "uvwxyz", and "abcd" at once. *)
Lemma consecutive_writes_concatenate_witness :
  let m := Host.machine_on (bytes_of "uvwxyz") [] in
  let text s := Text (Host.text_new (bytes_of s)) in
  exists m1 m2 m12,
    host_write (Host.call [Host.receiver; text "ab"]) m = (Return SQ_NI, m1) /\
    host_write (Host.call [Host.receiver; text "cd"]) m1 = (Return SQ_NI, m2) /\
    host_write (Host.call [Host.receiver; text "abcd"]) m = (Return SQ_NI, m12) /\
    file (scroll m2) = file (scroll m12).
Proof.
  intros m text.
  apply (consecutive_writes_concatenate Host.to_text (text "ab") (text "cd") (text "abcd")
           (bytes_of "ab") (bytes_of "cd") m).
  - apply host_text_zero_terminated.
  - apply host_text_zero_terminated.
  - apply (host_text_zero_terminated (bytes_of "abcd")).
  - reflexivity.
  - reflexivity.
  - apply call_of_call.
  - apply call_of_call.
  - apply call_of_call.
Defined.

(** The empty text, with an environment that fails the OS write. *)
Lemma write_empty_text_never_raises_witness :
  let m := Host.machine_on (bytes_of "abc") [Fault 0 5] in
  let args := Host.call [Host.receiver; Text (Host.text_new [])] in
  fst (host_write args m) = Return SQ_NI /\
  log (snd (host_write args m)) = log m ++ [Cfwrite []].
Proof.
  intros m args.
  apply (write_empty_text_never_raises Host.to_text args (Text (Host.text_new [])) m).
  - apply call_of_call.
  - reflexivity.
  - reflexivity.
Defined.

(** The line "a\0b\n" comes back as "a", with the stream behind the line. *)
Lemma read_newline_cuts_at_zero_byte_witness :
  let m := Host.machine_on ["a"%byte; x00; "b"%byte; x0a; "c"%byte] [] in
  let args := Host.call [Host.receiver; Text (Host.text_new [x0a])] in
  fst (host_read args m) = Return (Text (Host.text_new ["a"%byte])) /\
  position (file (scroll (snd (host_read args m))))
  = (position (file (scroll m)) + List.length ["a"%byte] + 1
     + List.length ["b"%byte; x0a])%nat.
Proof.
  intros m args.
  apply (read_newline_cuts_at_zero_byte Host.text_allocate Host.text_new Host.typename
           Host.strerror args (Host.text_new [x0a]) ["a"%byte] ["b"%byte; x0a] m).
  - apply call_of_call.
  - reflexivity.
  - split; reflexivity.
  - reflexivity.
  - simpl. intros [H|[]]. discriminate H.
Defined.
